(** * GrafoEnron: a weighted directed graph of e-mail contacts

    Shallow embedding of [grafo_enron.py] (class [GrafoEnron]) and the
    properties of its graph engine: edge insertion, weighted degrees,
    strong connectivity, the Eulerian check, the two shortest-path
    searches and the diameter.

    Conventions of the embedding.
    - A Python [dict] is an association list kept in insertion order with
      unique keys: [d[k] = v] overwrites in place when [k] is present and
      appends at the end otherwise, and iteration follows the list.
    - A Python [set] of strings is a duplicate-free list; the order of the
      list stands for the iteration order of the set, which Python leaves
      unspecified.  Every theorem on a query is stated for an arbitrary
      well-formed graph, hence for every iteration order.
    - Python integers are unbounded: [Z].
    - [str] comparison is lexicographic on code points; on UTF-8 bytes this
      is [String.compare].
    - A [while] loop is a fixpoint on a fuel argument; running out of fuel
      and a [KeyError] are distinct outcomes, and the theorems show that
      neither happens once the fuel exceeds an explicit bound. *)

From Stdlib Require Import List String Ascii ZArith Lia Bool Permutation.
From Stdlib Require Import Sorted OrderedTypeEx.
From Stdlib Require Import DecimalString.
Import ListNotations.

Local Open Scope string_scope.
Local Open Scope list_scope.
Local Open Scope Z_scope.

(** ** Outcomes of fallible, possibly diverging code *)

Inductive outcome (A : Type) : Type :=
| Done (a : A)
| KeyError
| OutOfFuel.

Arguments Done {A} a.
Arguments KeyError {A}.
Arguments OutOfFuel {A}.

Definition bind {A B : Type} (m : outcome A) (k : A -> outcome B) : outcome B :=
  match m with
  | Done a => k a
  | KeyError => KeyError
  | OutOfFuel => OutOfFuel
  end.

Notation "x <- m ;; k" := (bind m (fun x => k))
  (at level 61, m at next level, right associativity).

(** A [for] loop whose body may fail. *)
Fixpoint for_each {A S : Type} (body : S -> A -> outcome S) (l : list A) (s : S)
  : outcome S :=
  match l with
  | [] => Done s
  | x :: l' => s' <- body s x ;; for_each body l' s'
  end.

(** ** Python dictionaries with string keys *)

Module Dict.

Definition dict (V : Type) : Type := list (string * V).

(** [d.get(k)]; [None] stands for an absent key. *)
Fixpoint get {V : Type} (d : dict V) (k : string) : option V :=
  match d with
  | [] => None
  | (k', v) :: d' => if String.eqb k k' then Some v else get d' k
  end.

(** [k in d] *)
Definition mem {V : Type} (d : dict V) (k : string) : bool :=
  match get d k with Some _ => true | None => false end.

(** [d.get(k, dflt)] *)
Definition get_default {V : Type} (d : dict V) (k : string) (dflt : V) : V :=
  match get d k with Some v => v | None => dflt end.

(** [d[k] = v] *)
Fixpoint set {V : Type} (d : dict V) (k : string) (v : V) : dict V :=
  match d with
  | [] => [(k, v)]
  | (k', v') :: d' =>
      if String.eqb k k' then (k', v) :: d' else (k', v') :: set d' k v
  end.

Definition keys {V : Type} (d : dict V) : list string := map fst d.
Definition values {V : Type} (d : dict V) : list V := map snd d.
Definition items {V : Type} (d : dict V) : list (string * V) := d.

End Dict.

Import Dict.

(** ** Python sets of strings *)

Definition set_mem (x : string) (s : list string) : bool :=
  existsb (String.eqb x) s.

(** [s.add(x)] *)
Definition set_add (s : list string) (x : string) : list string :=
  if set_mem x s then s else s ++ [x].

(** [s.update(xs)] *)
Definition set_update (s : list string) (xs : list string) : list string :=
  fold_left set_add xs s.

Definition set_subset (a b : list string) : bool :=
  forallb (fun x => set_mem x b) a.

(** [a == b] on sets *)
Definition set_eqb (a b : list string) : bool :=
  set_subset a b && set_subset b a.

(** [sum(...)] over integers *)
Definition py_sum (l : list Z) : Z := fold_right Z.add 0 l.

(** ** The graph *)

Record GrafoEnron : Type := {
  grafo : dict (dict Z);      (* defaultdict(dict): sender -> recipient -> weight *)
  vertices : list string      (* set() *)
}.

(** [GrafoEnron()] *)
Definition novo : GrafoEnron := {| grafo := []; vertices := [] |}.

(** [_adicionar_aresta(de, para)].  [self.grafo[de]] on the defaultdict
    creates the row of [de] when it is missing. *)
Definition _adicionar_aresta (G : GrafoEnron) (de para : string) : GrafoEnron :=
  if String.eqb para de then G
  else
    let vs := set_update (vertices G) [de; para] in
    let g1 := match get (grafo G) de with
              | Some _ => grafo G
              | None => set (grafo G) de []
              end in
    let row := get_default g1 de [] in
    let row' := match get row para with
                | Some w => set row para (w + 1)
                | None => set row para 1
                end in
    let g2 := set g1 de row' in
    let g3 := if mem g2 para then g2 else set g2 para [] in
    {| grafo := g3; vertices := vs |}.

(** The insertions performed by [processar_emails] on a stream of
    (sender, recipient) pairs. *)
Definition inserir_todas (G : GrafoEnron) (pares : list (string * string)) : GrafoEnron :=
  fold_left (fun G p => _adicionar_aresta G (fst p) (snd p)) pares G.

(** [numero_de_vertices()] *)
Definition numero_de_vertices (G : GrafoEnron) : nat := List.length (vertices G).

(** [numero_de_arestas()] *)
Definition numero_de_arestas (G : GrafoEnron) : nat :=
  fold_right Nat.add 0%nat (map (fun r => List.length (snd r)) (grafo G)).

(** The weight of the edge [de -> para], when there is one. *)
Definition peso (G : GrafoEnron) (de para : string) : option Z :=
  match get (grafo G) de with
  | Some row => get row para
  | None => None
  end.

(** The edges in the order [salvar_lista_adjacencias] writes them. *)
Definition arestas (G : GrafoEnron) : list (string * string * Z) :=
  flat_map (fun r => map (fun e => (fst r, fst e, snd e)) (snd r)) (grafo G).

(** ** Degrees and rankings *)

(** [sum(self.grafo[v].values()) if v in self.grafo else 0] *)
Definition grau_saida (G : GrafoEnron) (v : string) : Z :=
  match get (grafo G) v with
  | Some row => py_sum (values row)
  | None => 0
  end.

(** The accumulation [graus[destino] += peso] over every edge, on a
    [defaultdict(int)]. *)
Definition somar_entrada (graus : dict Z) (e : string * Z) : dict Z :=
  set graus (fst e) (get_default graus (fst e) 0 + snd e).

Definition graus_entrada (G : GrafoEnron) : dict Z :=
  fold_left (fun graus r => fold_left somar_entrada (snd r) graus) (grafo G) [].

(** [grau_entrada[v]] on the [defaultdict(int)] *)
Definition grau_entrada (G : GrafoEnron) (v : string) : Z :=
  get_default (graus_entrada G) v 0.

(** Order of the tuples [(grau, v)]: integers first, then strings. *)
Definition tuple_ltb (a b : Z * string) : bool :=
  (fst a <? fst b) || ((fst a =? fst b) && String.ltb (snd a) (snd b)).

Fixpoint insert_desc (x : Z * string) (l : list (Z * string)) : list (Z * string) :=
  match l with
  | [] => [x]
  | y :: l' => if tuple_ltb x y then y :: insert_desc x l' else x :: y :: l'
  end.

(** [sorted(l, reverse=True)]: descending, and stable. *)
Definition sorted_reverse (l : list (Z * string)) : list (Z * string) :=
  fold_right insert_desc [] l.

(** [top_20_grau_saida()] *)
Definition top_20_grau_saida (G : GrafoEnron) : list (Z * string) :=
  let graus := map (fun r => (py_sum (values (snd r)), fst r)) (grafo G) in
  firstn 20 (sorted_reverse graus).

(** [top_20_grau_entrada()] *)
Definition top_20_grau_entrada (G : GrafoEnron) : list (Z * string) :=
  let graus := graus_entrada G in
  firstn 20 (sorted_reverse (map (fun e => (snd e, fst e)) (items graus))).

(** ** Strong connectivity *)

(** The loop of the local function [bfs(grafo, inicio)]. *)
Fixpoint bfs_loop (fuel : nat) (g : dict (dict Z)) (visitados fila : list string)
  : outcome (list string) :=
  match fila with
  | [] => Done visitados
  | atual :: resto =>
      match fuel with
      | O => OutOfFuel
      | S fuel' =>
          if set_mem atual visitados
          then bfs_loop fuel' g visitados resto
          else bfs_loop fuel' g (set_add visitados atual)
                 (resto ++ keys (get_default g atual []))
      end
  end.

Definition bfs (fuel : nat) (g : dict (dict Z)) (inicio : string) : outcome (list string) :=
  bfs_loop fuel g [] [inicio].

(** [reverso[v][u] = self.grafo[u][v]] for every edge, on a
    [defaultdict(dict)]. *)
Definition inverter_aresta (u : string) (rev : dict (dict Z)) (e : string * Z)
  : dict (dict Z) :=
  set rev (fst e) (set (get_default rev (fst e) []) u (snd e)).

Definition reverso (g : dict (dict Z)) : dict (dict Z) :=
  fold_left (fun rev r => fold_left (inverter_aresta (fst r)) (snd r) rev) g [].

(** [_eh_fortemente_conexo()]; [v0] is the first vertex the set yields. *)
Definition _eh_fortemente_conexo (fuel : nat) (G : GrafoEnron) : outcome bool :=
  match vertices G with
  | [] => Done true
  | v0 :: _ =>
      normal <- bfs fuel (grafo G) v0 ;;
      inverso <- bfs fuel (reverso (grafo G)) v0 ;;
      Done (set_eqb normal (vertices G) && set_eqb inverso (vertices G))
  end.

(** ** The Eulerian check *)

(** [str(n)] for an integer *)
Definition str (n : Z) : string := NilZero.string_of_int (Z.to_int n).

Definition msg_graus : string :=
  "❌ Grau de entrada ≠ grau de saída em alguns vértices:".
Definition msg_conexo : string :=
  "❌ O grafo não é fortemente conexo.".
Definition msg_vertice (v : string) (entrada saida : Z) : string :=
  ("   - " ++ v ++ " → entrada: " ++ str entrada ++ ", saída: " ++ str saida)%string.

(** The list [inconsistencias]. *)
Definition inconsistencias (G : GrafoEnron) : list string :=
  flat_map (fun v =>
              let saida := grau_saida G v in
              let entrada := grau_entrada G v in
              if entrada =? saida then [] else [msg_vertice v entrada saida])
           (vertices G).

(** [grafo_euleriano()] *)
Definition grafo_euleriano (fuel : nat) (G : GrafoEnron) : outcome (bool * list string) :=
  let inc := inconsistencias G in
  let problemas := match inc with [] => [] | _ => msg_graus :: inc end in
  conexo <- _eh_fortemente_conexo fuel G ;;
  let problemas := if conexo then problemas else problemas ++ [msg_conexo] in
  Done (match problemas with [] => true | _ => false end, problemas).

(** ** Shortest paths *)

(** [heapq] on tuples [(dist, vertex)].  A binary heap always pops a least
    tuple, and equal tuples are indistinguishable, so the sequence of pops
    is that of a sorted list. *)
Definition heap : Type := list (Z * string).

Fixpoint heappush (h : heap) (x : Z * string) : heap :=
  match h with
  | [] => [x]
  | y :: h' => if tuple_ltb y x then y :: heappush h' x else x :: y :: h'
  end.

(** The test [vizinho not in distancias or nova_dist < distancias[vizinho]]. *)
Definition melhora (distancias : dict Z) (vizinho : string) (nova_dist : Z) : bool :=
  match get distancias vizinho with
  | None => true
  | Some d => nova_dist <? d
  end.

(** Body of the [for vizinho, peso in ...items()] loop of
    [vertices_ate_distancia]. *)
Definition relaxar_ate (distancia_max dist : Z) (st : dict Z * heap) (e : string * Z)
  : dict Z * heap :=
  let '(distancias, fila) := st in
  let '(vizinho, peso) := e in
  let nova_dist := dist + peso in
  if (nova_dist <=? distancia_max) && melhora distancias vizinho nova_dist
  then (set distancias vizinho nova_dist, heappush fila (nova_dist, vizinho))
  else st.

Fixpoint ate_loop (fuel : nat) (G : GrafoEnron) (distancia_max : Z)
  (distancias : dict Z) (fila : heap) : outcome (dict Z) :=
  match fila with
  | [] => Done distancias
  | (dist, atual) :: fila' =>
      match fuel with
      | O => OutOfFuel
      | S fuel' =>
          match get distancias atual with
          | None => KeyError
          | Some d_atual =>
              if dist >? d_atual
              then ate_loop fuel' G distancia_max distancias fila'
              else
                let '(distancias', fila'') :=
                  fold_left (relaxar_ate distancia_max dist)
                    (items (get_default (grafo G) atual [])) (distancias, fila') in
                ate_loop fuel' G distancia_max distancias' fila''
          end
      end
  end.

(** [vertices_ate_distancia(origem, distancia_max)] *)
Definition vertices_ate_distancia (fuel : nat) (G : GrafoEnron) (origem : string)
  (distancia_max : Z) : outcome (list string) :=
  distancias <- ate_loop fuel G distancia_max [(origem, 0)] [(0, origem)] ;;
  Done (map fst
          (filter (fun e => negb (String.eqb (fst e) origem) && (snd e <=? distancia_max))
             (items distancias))).

(** State of [_dijkstra_com_caminhos]: [distancias], [caminhos], [fila]. *)
Definition estado : Type := (dict Z * dict (list string) * heap)%type.

(** Body of the inner loop of [_dijkstra_com_caminhos]; [caminhos[atual]]
    is read at each relaxation. *)
Definition relaxar_caminho (dist : Z) (atual : string) (st : estado) (e : string * Z)
  : outcome estado :=
  let '(distancias, caminhos, fila) := st in
  let '(vizinho, peso) := e in
  let nova_dist := dist + peso in
  if melhora distancias vizinho nova_dist
  then
    match get caminhos atual with
    | None => KeyError
    | Some c => Done (set distancias vizinho nova_dist,
                      set caminhos vizinho (c ++ [vizinho]),
                      heappush fila (nova_dist, vizinho))
    end
  else Done st.

Fixpoint caminhos_loop (fuel : nat) (G : GrafoEnron) (distancias : dict Z)
  (caminhos : dict (list string)) (fila : heap)
  : outcome (dict Z * dict (list string)) :=
  match fila with
  | [] => Done (distancias, caminhos)
  | (dist, atual) :: fila' =>
      match fuel with
      | O => OutOfFuel
      | S fuel' =>
          st <- for_each (relaxar_caminho dist atual)
                  (items (get_default (grafo G) atual []))
                  (distancias, caminhos, fila') ;;
          let '(distancias', caminhos', fila'') := st in
          caminhos_loop fuel' G distancias' caminhos' fila''
      end
  end.

(** [_dijkstra_com_caminhos(origem)] *)
Definition _dijkstra_com_caminhos (fuel : nat) (G : GrafoEnron) (origem : string)
  : outcome (dict Z * dict (list string)) :=
  caminhos_loop fuel G [(origem, 0)] [(origem, [origem])] [(0, origem)].

(** ** Diameter *)

(** Body of [for destino in distancias]. *)
Definition atualizar_maior (distancias : dict Z) (caminhos : dict (list string))
  (acc : Z * list string) (destino : string) : outcome (Z * list string) :=
  match get distancias destino with
  | None => KeyError
  | Some d =>
      if d >? fst acc
      then match get caminhos destino with
           | None => KeyError
           | Some c => Done (d, c)
           end
      else Done acc
  end.

(** [calcular_diametro()] *)
Definition calcular_diametro (fuel : nat) (G : GrafoEnron) : outcome (Z * list string) :=
  for_each (fun acc origem =>
              r <- _dijkstra_com_caminhos fuel G origem ;;
              for_each (atualizar_maior (fst r) (snd r)) (keys (fst r)) acc)
           (vertices G) (0, []).

(** ** Graph-theoretic notions used by the statements *)

(** [caminho G o v c d]: the vertex sequence [c] starts at [o], ends at [v],
    follows edges of [G], and its edge weights add up to [d]. *)
Inductive caminho (G : GrafoEnron) (o : string) : string -> list string -> Z -> Prop :=
| caminho_origem : caminho G o o [o] 0
| caminho_passo (u v : string) (w : Z) (c : list string) (d : Z) :
    caminho G o u c d -> peso G u v = Some w -> caminho G o v (c ++ [v]) (d + w).

(** Total weight of a vertex sequence, when each consecutive pair is an
    edge. *)
Fixpoint peso_caminho (G : GrafoEnron) (c : list string) : option Z :=
  match c with
  | [] => None
  | u :: c' =>
      match c' with
      | [] => Some 0
      | v :: _ =>
          match peso G u v, peso_caminho G c' with
          | Some w, Some d => Some (w + d)
          | _, _ => None
          end
      end
  end.

(** Some path leads from [o] to [v]. *)
Definition alcancavel (G : GrafoEnron) (o v : string) : Prop :=
  exists c d, caminho G o v c d.

(** [d] is the shortest weighted-path distance from [o] to [v]. *)
Definition distancia (G : GrafoEnron) (o v : string) (d : Z) : Prop :=
  (exists c, caminho G o v c d) /\
  (forall c' d', caminho G o v c' d' -> d <= d').

(** Every vertex is reachable from every other vertex. *)
Definition fortemente_conexo (G : GrafoEnron) : Prop :=
  forall u v, In u (vertices G) -> In v (vertices G) -> alcancavel G u v.

(** Weighted degrees read off the edge list. *)
Definition grau_saida_arestas (G : GrafoEnron) (v : string) : Z :=
  py_sum (map snd (filter (fun e => String.eqb (fst (fst e)) v) (arestas G))).

Definition grau_entrada_arestas (G : GrafoEnron) (v : string) : Z :=
  py_sum (map snd (filter (fun e => String.eqb (snd (fst e)) v) (arestas G))).

Definition peso_total (G : GrafoEnron) : Z := py_sum (map snd (arestas G)).

(** The invariant of every graph built by [_adicionar_aresta]. *)
Record bem_formado (G : GrafoEnron) : Prop := {
  bf_chaves : NoDup (keys (grafo G));
  bf_linhas : forall u row, In (u, row) (grafo G) -> NoDup (keys row);
  bf_pesos : forall u v w, In (u, v, w) (arestas G) -> 1 <= w;
  bf_lacos : forall u v w, In (u, v, w) (arestas G) -> u <> v;
  bf_vertices : NoDup (vertices G);
  bf_origens : forall u, In u (keys (grafo G)) -> In u (vertices G);
  bf_destinos : forall u v w, In (u, v, w) (arestas G) -> In v (keys (grafo G))
}.

(** Fuel that suffices for the loops. *)
Definition fuel_bfs (G : GrafoEnron) : nat := S (numero_de_arestas G).

Definition fuel_dijkstra (G : GrafoEnron) : nat :=
  Z.to_nat (2 * Z.of_nat (numero_de_arestas G) * (peso_total G + 1) + 2).

(** ** Measures, invariants and sample graphs used in the proofs *)

(** Sum of [h] over the values of a dictionary. *)
Definition soma_valores {V : Type} (h : V -> Z) (d : dict V) : Z :=
  py_sum (map (fun e => h (snd e)) d).

(** [h] of a looked-up value, 0 for an absent key. *)
Definition valor_ou_zero {V : Type} (h : V -> Z) (o : option V) : Z :=
  match o with Some x => h x | None => 0 end.

(** Number of pairs of the stream that are not discarded as self-loops:
    each adds weight 1. *)
Definition peso_inserido (pares : list (string * string)) : Z :=
  Z.of_nat (List.length (filter (fun p => negb (String.eqb (snd p) (fst p))) pares)).

(** [v] is a key of the row of [u]. *)
Definition sucessor (g : dict (dict Z)) (u v : string) : Prop :=
  In v (keys (get_default g u [])).

(** Reachability along successors, in a graph or in its transpose. *)
Inductive alcanca (g : dict (dict Z)) (o : string) : string -> Prop :=
| alcanca_refl : alcanca g o o
| alcanca_passo (u v : string) : alcanca g o u -> sucessor g u v -> alcanca g o v.

(** Edges that leave a vertex not yet visited: what [bfs] may still enqueue. *)
Definition pendentes (g : dict (dict Z)) (visitados : list string) : nat :=
  fold_right Nat.add 0%nat
    (map (fun r => if set_mem (fst r) visitados then 0%nat else List.length (snd r)) g).

(** Invariant of the loop of [bfs]: everything seen is reachable, the
    visited set is closed under successors up to the queue, and the start is
    seen. *)
Definition bfs_inv (g : dict (dict Z)) (v0 : string) (visitados fila : list string) : Prop :=
  (forall x, In x visitados \/ In x fila -> alcanca g v0 x) /\
  (forall u v, In u visitados -> sucessor g u v -> In v visitados \/ In v fila) /\
  (In v0 visitados \/ In v0 fila).

(** Number of entries of all rows. *)
Definition total_linhas (g : dict (dict Z)) : nat :=
  fold_right Nat.add 0%nat (map (fun r => List.length (snd r)) g).

(** The directed cycle a -> b -> c -> a, each edge of weight 1. *)
Definition ciclo_abc : GrafoEnron :=
  inserir_todas novo [("a", "b"); ("b", "c"); ("c", "a")].

(** A graph with one registered vertex and no edge. *)
Definition so_um_vertice : GrafoEnron := {| grafo := []; vertices := ["a"] |}.

(** [nova_dist <= distancia_max], or no test at all in the unbounded
    search. *)
Definition dentro (lim : option Z) (x : Z) : Prop :=
  match lim with Some D => x <= D | None => True end.

Definition dentrob (lim : option Z) (x : Z) : bool :=
  match lim with Some D => x <=? D | None => true end.

(** The effect of one relaxation on [distancias] and [fila], common to the
    two searches. *)
Definition relaxar (lim : option Z) (dist : Z) (st : dict Z * heap) (e : string * Z)
  : dict Z * heap :=
  let nova_dist := dist + snd e in
  if dentrob lim nova_dist && melhora (fst st) (fst e) nova_dist
  then (set (fst st) (fst e) nova_dist, heappush (snd st) (nova_dist, fst e))
  else st.

(** Weight of the edges that lead to a vertex not yet discovered. *)
Definition residuo (G : GrafoEnron) (distancias : dict Z) : Z :=
  py_sum (map (fun e : string * string * Z =>
                 if mem distancias (snd (fst e)) then 0 else snd e) (arestas G)).

(** Tentative distance of a vertex; [W + 1] stands for "not discovered". *)
Definition pot (W : Z) (distancias : dict Z) (v : string) : Z :=
  match get distancias v with Some d => d | None => W + 1 end.

Definition potencial (G : GrafoEnron) (distancias : dict Z) : Z :=
  py_sum (map (fun e : string * string * Z =>
                 pot (peso_total G) distancias (snd (fst e))) (arestas G)).

(** Each relaxation lowers the potential and adds one entry to the queue;
    each pop removes one entry. *)
Definition medida (G : GrafoEnron) (distancias : dict Z) (fila : heap) : Z :=
  2 * potencial G distancias + Z.of_nat (List.length fila).

(** Invariant of the search from [origem]: every recorded distance and every
    queued key is the weight of a real path; a queued key is never below the
    recorded distance; a vertex whose recorded distance is not queued has all
    its edges relaxed; and the values stay within the total weight. *)
Record dij_inv (G : GrafoEnron) (origem : string) (lim : option Z)
  (distancias : dict Z) (fila : heap) : Prop := {
  di_nodup : NoDup (keys distancias);
  di_origem : get distancias origem = Some 0;
  di_real : forall v d, get distancias v = Some d -> exists c, caminho G origem v c d;
  di_lim : forall v d, get distancias v = Some d -> v = origem \/ dentro lim d;
  di_fila_real : forall d u, In (d, u) fila -> exists c, caminho G origem u c d;
  di_fila : forall d u, In (d, u) fila ->
                        exists du, get distancias u = Some du /\ du <= d;
  di_relax : forall u du, get distancias u = Some du ->
               In (du, u) fila \/
               (forall v w, peso G u v = Some w -> dentro lim (du + w) ->
                            exists dv, get distancias v = Some dv /\ dv <= du + w);
  di_cota : forall v d, get distancias v = Some d ->
                        0 <= d /\ d + residuo G distancias <= peso_total G;
  di_fila_cota : forall d u, In (d, u) fila ->
                             0 <= d /\ d + residuo G distancias <= peso_total G
}.

(** [caminhos] has the keys of [distancias], and each recorded path is a real
    path that weighs no more than the recorded distance. *)
Definition cam_inv (G : GrafoEnron) (origem : string) (distancias : dict Z)
  (caminhos : dict (list string)) : Prop :=
  (forall v, get caminhos v = None <-> get distancias v = None) /\
  (forall v c, get caminhos v = Some c ->
               exists d dv, caminho G origem v c d /\
                            get distancias v = Some dv /\ d <= dv).

(** The path graph a -> b (weight 3) -> c (weight 4). *)
Definition caminho_abc : GrafoEnron :=
  inserir_todas novo
    [("a", "b"); ("a", "b"); ("a", "b"); ("b", "c"); ("b", "c"); ("b", "c"); ("b", "c")].

(** The edge u -> v of weight 3 is bypassed by u -> x -> v of weight 2. *)
Definition atalho : GrafoEnron :=
  inserir_todas novo [("u", "v"); ("u", "v"); ("u", "v"); ("u", "x"); ("x", "v")].

(** The diameter would be at least every edge weight, hence the largest,
    and at least every shortest-path distance. *)
Definition diametro_cobre_arestas : Prop :=
  forall (G : GrafoEnron) (fuel : nat) (d : Z) (c : list string),
    bem_formado G -> (1 <= numero_de_arestas G)%nat ->
    (fuel_dijkstra G <= fuel)%nat ->
    calcular_diametro fuel G = Done (d, c) ->
    (forall u v w, peso G u v = Some w -> w <= d) /\
    (forall u v delta, distancia G u v delta -> delta <= d).

(** [a] may stand before [b] in a descending ranking. *)
Definition nao_menor (a b : Z * string) : Prop := tuple_ltb a b = false.

(** Nineteen senders write once to "hub": twenty vertices, one of them with
    incoming edges. *)
Definition estrela : GrafoEnron :=
  inserir_todas novo
    (map (fun s => (s, "hub"))
       ["s01"; "s02"; "s03"; "s04"; "s05"; "s06"; "s07"; "s08"; "s09"; "s10";
        "s11"; "s12"; "s13"; "s14"; "s15"; "s16"; "s17"; "s18"; "s19"]).

(** Number of times the pair [(a, b)] occurs in the stream. *)
Definition ocorrencias (a b : string) (pares : list (string * string)) : nat :=
  List.length (filter (fun p => String.eqb (fst p) a && String.eqb (snd p) b) pares).

(** The weight after one more message on an edge. *)
Definition mais_um (o : option Z) : Z :=
  match o with Some w => w + 1 | None => 1 end.

(** [vertices_isolados()]: the count of incoming edges per vertex, then the
    vertices with an empty row and no incoming edge. *)
Definition contar_entrada (graus : dict Z) (e : string * Z) : dict Z :=
  set graus (fst e) (get_default graus (fst e) 0 + 1).

Definition contagem_entrada (G : GrafoEnron) : dict Z :=
  fold_left (fun graus r => fold_left contar_entrada (snd r) graus) (grafo G) [].

Definition vertices_isolados (G : GrafoEnron) : nat :=
  let grau_entrada := contagem_entrada G in
  List.length
    (filter (fun v => Nat.eqb (List.length (get_default (grafo G) v [])) 0
                      && (get_default grau_entrada v 0 =? 0))
       (vertices G)).

(** [v] is an endpoint of the edge [e]. *)
Definition toca (v : string) (e : string * string * Z) : bool :=
  String.eqb (fst (fst e)) v || String.eqb (snd (fst e)) v.

(** The pair is not discarded by [_adicionar_aresta]. *)
Definition nao_laco (p : string * string) : bool :=
  negb (String.eqb (snd p) (fst p)).

Definition par_eq_dec (p q : string * string) : {p = q} + {p <> q}.
Proof.
  decide equality; apply string_dec.
Defined.

(** The graph whose rows are the dictionary [reverso]. *)
Definition transposto (G : GrafoEnron) : GrafoEnron :=
  {| grafo := reverso (grafo G); vertices := vertices G |}.

(** The running maximum of [calcular_diametro]: either nothing above 0 was
    seen yet, or the pair is a shortest distance from a vertex of the graph
    together with a path that realises it. *)
Definition maior_atingido (G : GrafoEnron) (acc : Z * list string) : Prop :=
  acc = (0, []) \/
  (0 < fst acc /\
   exists u v, In u (vertices G) /\ distancia G u v (fst acc) /\
               caminho G u v (snd acc) (fst acc)).

(** What [_extrair_remetente] and [_extrair_destinatarios] return for one
    readable file: the sender, or [None], and the list of recipients. *)
Definition mensagem : Type := (option string * list string)%type.

(** The body of the loop of [processar_emails] for one file:
    [if remetente and destinatarios: for destinatario in destinatarios:
    self._adicionar_aresta(remetente, destinatario)].  [None] and the empty
    string are false, and so is the empty list. *)
Definition processar_mensagem (G : GrafoEnron) (m : mensagem) : GrafoEnron :=
  match fst m with
  | None => G
  | Some remetente =>
      if String.eqb remetente "" then G
      else match snd m with
           | [] => G
           | destinatarios =>
               fold_left (fun G destinatario => _adicionar_aresta G remetente destinatario)
                 destinatarios G
           end
  end.

(** [processar_emails] on the extracted header fields of the files, in the
    order of the walk. *)
Definition processar_emails (G : GrafoEnron) (mensagens : list mensagem) : GrafoEnron :=
  fold_left processar_mensagem mensagens G.

(** The pairs a message contributes. *)
Definition pares_da_mensagem (m : mensagem) : list (string * string) :=
  match fst m with
  | None => []
  | Some remetente =>
      if String.eqb remetente "" then [] else map (fun d => (remetente, d)) (snd m)
  end.

(** How often [b] is a recipient of a message sent by [a]. *)
Definition envios (a b : string) (mensagens : list mensagem) : nat :=
  fold_right Nat.add 0%nat
    (map (fun m : mensagem =>
            match fst m with
            | Some r => if String.eqb r a
                        then List.length (filter (String.eqb b) (snd m)) else 0%nat
            | None => 0%nat
            end) mensagens).

(** The line [f"{de} -> {para} [peso: {peso}]\n"]. *)
Definition linha (de para : string) (w : Z) : string :=
  (de ++ " -> " ++ para ++ " [peso: " ++ str w ++ "]" ++ String "010"%char EmptyString)%string.

(** The lines [salvar_lista_adjacencias] writes, in order. *)
Definition linhas_adjacencia (G : GrafoEnron) : list string :=
  map (fun e : string * string * Z => linha (fst (fst e)) (snd (fst e)) (snd e)) (arestas G).

(** The content of the file written by [salvar_lista_adjacencias]. *)
Definition salvar_lista_adjacencias (G : GrafoEnron) : string :=
  String.concat "" (linhas_adjacencia G).

(** The vertices whose weighted in-degree and out-degree differ, in the order
    of the vertex set. *)
Definition desequilibrados (G : GrafoEnron) : list string :=
  filter (fun v => negb (grau_entrada_arestas G v =? grau_saida_arestas G v)) (vertices G).

(** * Properties *)

(** ** Dictionaries *)

Section DictLemmas.

Context {V : Type}.
Implicit Types (d : dict V) (k : string) (v : V).

Lemma get_set_eq d k v : get (set d k v) k = Some v.
Proof.
  induction d as [|[k' v'] d IH]; simpl.
  - now rewrite String.eqb_refl.
  - destruct (String.eqb k k') eqn:E; simpl; rewrite E; auto.
Qed.

Lemma get_set_neq d k k' v : k <> k' -> get (set d k v) k' = get d k'.
Proof.
  intros Hne. induction d as [|[k0 v0] d IH]; simpl.
  - destruct (String.eqb k' k) eqn:E; auto.
    apply String.eqb_eq in E. congruence.
  - destruct (String.eqb k k0) eqn:E; simpl.
    + apply String.eqb_eq in E. subst k0.
      destruct (String.eqb k' k) eqn:E'; auto.
      apply String.eqb_eq in E'. congruence.
    + now rewrite IH.
Qed.

Lemma get_set d k k' v :
  get (set d k v) k' = if String.eqb k k' then Some v else get d k'.
Proof.
  destruct (String.eqb k k') eqn:E.
  - apply String.eqb_eq in E. subst. apply get_set_eq.
  - apply String.eqb_neq in E. now apply get_set_neq.
Qed.

Lemma get_none_iff d k : get d k = None <-> ~ In k (keys d).
Proof.
  induction d as [|[k' v'] d IH]; simpl.
  - tauto.
  - destruct (String.eqb k k') eqn:E.
    + apply String.eqb_eq in E. subst. split; [discriminate | tauto].
    + apply String.eqb_neq in E. rewrite IH. split; intros H; [|tauto].
      intros [H1|H1]; [congruence | tauto].
Qed.

Lemma get_some_in d k v : get d k = Some v -> In (k, v) d.
Proof.
  induction d as [|[k' v'] d IH]; simpl; [discriminate|].
  destruct (String.eqb k k') eqn:E.
  - apply String.eqb_eq in E. intros [= ->]. subst. now left.
  - auto.
Qed.

Lemma get_some_key d k v : get d k = Some v -> In k (keys d).
Proof.
  intros H. apply get_some_in in H. apply (in_map fst) in H. exact H.
Qed.

Lemma in_keys_get d k : In k (keys d) -> exists v, get d k = Some v.
Proof.
  intros H. destruct (get d k) eqn:E; [eauto|].
  apply get_none_iff in E. contradiction.
Qed.

Lemma in_get d k v : NoDup (keys d) -> In (k, v) d -> get d k = Some v.
Proof.
  induction d as [|[k' v'] d IH]; simpl; [tauto|].
  intros Hnd [H|H].
  - injection H as -> ->. now rewrite String.eqb_refl.
  - inversion Hnd as [|? ? Hni Hnd']; subst.
    destruct (String.eqb k k') eqn:E.
    + apply String.eqb_eq in E. subst. exfalso. apply Hni.
      apply (in_map fst) in H. exact H.
    + auto.
Qed.

Lemma set_absent d k v : get d k = None -> set d k v = d ++ [(k, v)].
Proof.
  induction d as [|[k' v'] d IH]; simpl; auto.
  destruct (String.eqb k k'); [discriminate|].
  intros H. now rewrite IH.
Qed.

Lemma keys_set_present d k v :
  In k (keys d) -> keys (set d k v) = keys d.
Proof.
  induction d as [|[k' v'] d IH]; simpl; [tauto|].
  destruct (String.eqb k k') eqn:E; simpl; auto.
  apply String.eqb_neq in E. intros [H|H]; [congruence|].
  f_equal. auto.
Qed.

Lemma keys_set_absent d k v :
  ~ In k (keys d) -> keys (set d k v) = keys d ++ [k].
Proof.
  intros H. apply get_none_iff in H. rewrite set_absent by assumption.
  unfold keys. now rewrite map_app.
Qed.

Lemma in_keys_set d k v k' :
  In k' (keys (set d k v)) <-> k' = k \/ In k' (keys d).
Proof.
  destruct (in_dec string_dec k (keys d)) as [H|H].
  - rewrite keys_set_present by assumption. split; [tauto|].
    intros [->|]; assumption.
  - rewrite keys_set_absent by assumption. rewrite in_app_iff. simpl.
    split; intros; intuition congruence.
Qed.

Lemma NoDup_keys_set d k v : NoDup (keys d) -> NoDup (keys (set d k v)).
Proof.
  intros Hnd. destruct (in_dec string_dec k (keys d)) as [H|H].
  - now rewrite keys_set_present.
  - rewrite keys_set_absent by assumption.
    apply NoDup_app; auto.
    + repeat constructor. simpl. tauto.
    + simpl. intros x Hx [<-|[]]. contradiction.
Qed.

Lemma mem_true_iff d k : mem d k = true <-> In k (keys d).
Proof.
  unfold mem. destruct (get d k) eqn:E.
  - split; auto. intros _. eapply get_some_key; eauto.
  - apply get_none_iff in E. split; [discriminate | contradiction].
Qed.

Lemma get_default_set d k k' v dflt :
  get_default (set d k v) k' dflt =
  if String.eqb k k' then v else get_default d k' dflt.
Proof.
  unfold get_default. rewrite get_set. now destruct (String.eqb k k').
Qed.

End DictLemmas.

(** ** Sets *)

Lemma set_mem_iff x s : set_mem x s = true <-> In x s.
Proof.
  unfold set_mem. rewrite existsb_exists. split.
  - intros (y & Hy & E). apply String.eqb_eq in E. now subst.
  - intros H. exists x. split; auto. apply String.eqb_refl.
Qed.

Lemma set_mem_false_iff x s : set_mem x s = false <-> ~ In x s.
Proof.
  rewrite <- set_mem_iff. destruct (set_mem x s); split; congruence.
Qed.

Lemma in_set_add s x y : In y (set_add s x) <-> y = x \/ In y s.
Proof.
  unfold set_add. destruct (set_mem x s) eqn:E.
  - apply set_mem_iff in E. split; [tauto|]. intros [->|]; auto.
  - rewrite in_app_iff. simpl. intuition congruence.
Qed.

Lemma NoDup_set_add s x : NoDup s -> NoDup (set_add s x).
Proof.
  intros H. unfold set_add. destruct (set_mem x s) eqn:E; auto.
  apply set_mem_false_iff in E. apply NoDup_app; auto.
  - repeat constructor. simpl. tauto.
  - simpl. intros y Hy [<-|[]]. contradiction.
Qed.

Lemma set_subset_iff a b : set_subset a b = true <-> incl a b.
Proof.
  unfold set_subset. rewrite forallb_forall. unfold incl.
  split; intros H x Hx; apply set_mem_iff; auto.
Qed.

Lemma set_eqb_iff a b : set_eqb a b = true <-> (forall x, In x a <-> In x b).
Proof.
  unfold set_eqb. rewrite andb_true_iff, !set_subset_iff. unfold incl.
  split.
  - intros [H1 H2] x. split; auto.
  - intros H. split; intros x; apply H.
Qed.

(** ** Edge insertion *)

Lemma adicionar_primeira (a b : string) :
  a <> b ->
  _adicionar_aresta novo a b =
  {| grafo := [(a, [(b, 1)]); (b, [])]; vertices := [a; b] |}.
Proof.
  intros Hab. unfold _adicionar_aresta, novo. simpl.
  assert (Eba : String.eqb b a = false) by (apply String.eqb_neq; congruence).
  assert (Eab : String.eqb a b = false) by (apply String.eqb_neq; congruence).
  rewrite Eba. unfold set_update, set_add, get_default, mem. simpl.
  rewrite !String.eqb_refl. simpl. rewrite ?Eba, ?Eab. simpl.
  rewrite ?String.eqb_refl, ?Eba, ?Eab. simpl. reflexivity.
Qed.

Lemma adicionar_repetida (a b : string) (k : Z) :
  a <> b ->
  _adicionar_aresta {| grafo := [(a, [(b, k)]); (b, [])]; vertices := [a; b] |} a b =
  {| grafo := [(a, [(b, k + 1)]); (b, [])]; vertices := [a; b] |}.
Proof.
  intros Hab. unfold _adicionar_aresta. simpl.
  assert (Eba : String.eqb b a = false) by (apply String.eqb_neq; congruence).
  assert (Eab : String.eqb a b = false) by (apply String.eqb_neq; congruence).
  rewrite Eba. unfold set_update, set_add, get_default, mem. simpl.
  rewrite !String.eqb_refl. simpl. rewrite ?Eba, ?Eab. simpl.
  rewrite ?String.eqb_refl, ?Eba, ?Eab. simpl.
  rewrite ?String.eqb_refl, ?Eba, ?Eab. simpl. reflexivity.
Qed.

Lemma inserir_repetidas (a b : string) (n : nat) (k : Z) :
  a <> b ->
  inserir_todas {| grafo := [(a, [(b, k)]); (b, [])]; vertices := [a; b] |}
    (repeat (a, b) n) =
  {| grafo := [(a, [(b, k + Z.of_nat n)]); (b, [])]; vertices := [a; b] |}.
Proof.
  intros Hab. revert k. induction n as [|n IH]; intros k.
  - simpl. now rewrite Z.add_0_r.
  - cbn [repeat inserir_todas fold_left fst snd].
    rewrite adicionar_repetida by assumption.
    fold (inserir_todas {| grafo := [(a, [(b, k + 1)]); (b, [])]; vertices := [a; b] |} (repeat (a, b) n)).
    rewrite IH. replace (k + 1 + Z.of_nat n) with (k + Z.of_nat (S n)) by lia. reflexivity.
Qed.

(** C7: inserting the pair [(a, b)], [a <> b], [n >= 1] times into the empty
    graph yields exactly one edge, [a -> b], and its weight is [n]. *)
Theorem acumulacao_de_peso (a b : string) (n : nat) :
  a <> b -> (1 <= n)%nat ->
  let G := inserir_todas novo (repeat (a, b) n) in
  G = {| grafo := [(a, [(b, Z.of_nat n)]); (b, [])]; vertices := [a; b] |} /\
  arestas G = [(a, b, Z.of_nat n)] /\
  numero_de_arestas G = 1%nat /\
  peso G a b = Some (Z.of_nat n).
Proof.
  intros Hab Hn G.
  assert (HG : G = {| grafo := [(a, [(b, Z.of_nat n)]); (b, [])]; vertices := [a; b] |}).
  { subst G. destruct n as [|n]; [lia|].
    cbn [repeat inserir_todas fold_left fst snd].
    rewrite adicionar_primeira by assumption.
    fold (inserir_todas {| grafo := [(a, [(b, 1)]); (b, [])]; vertices := [a; b] |} (repeat (a, b) n)).
    rewrite inserir_repetidas by assumption.
    replace (1 + Z.of_nat n) with (Z.of_nat (S n)) by lia. reflexivity. }
  split; [exact HG|]. rewrite HG.
  repeat split.
  unfold peso. simpl. rewrite String.eqb_refl. simpl. now rewrite String.eqb_refl.
Qed.

Lemma acumulacao_de_peso_witness :
  "a" <> "b" /\ (1 <= 3)%nat /\
  let G := inserir_todas novo (repeat ("a", "b") 3) in
  G = {| grafo := [("a", [("b", 3)]); ("b", [])]; vertices := ["a"; "b"] |} /\
  arestas G = [("a", "b", 3)] /\
  numero_de_arestas G = 1%nat /\
  peso G "a" "b" = Some 3.
Proof.
  split; [discriminate|]. split; [lia|].
  apply (acumulacao_de_peso "a" "b" 3); [discriminate | lia].
Defined.
(** ** Well-formedness of built graphs *)

Lemma in_set_inv {V : Type} (d : dict V) k v k' v' :
  In (k', v') (set d k v) -> (k' = k /\ v' = v) \/ In (k', v') d.
Proof.
  induction d as [|[k0 v0] d IH]; simpl.
  - intros [[= <- <-]|[]]. now left.
  - destruct (String.eqb k k0) eqn:E; simpl.
    + apply String.eqb_eq in E. subst k0.
      intros [[= <- <-]|H]; auto.
    + intros [H|H]; auto. destruct (IH H); auto.
Qed.

Lemma in_arestas G u v w :
  In (u, v, w) (arestas G) <-> exists row, In (u, row) (grafo G) /\ In (v, w) row.
Proof.
  unfold arestas. rewrite in_flat_map. split.
  - intros ([u' row] & Hin & H). simpl in H. apply in_map_iff in H.
    destruct H as ([v' w'] & [= <- <- <-] & H). eauto.
  - intros (row & Hin & H). exists (u, row). split; auto.
    simpl. apply in_map_iff. exists (v, w). auto.
Qed.

Lemma bem_formado_novo : bem_formado novo.
Proof.
  constructor; simpl; try constructor; try tauto.
Qed.

Lemma bem_formado_adicionar G de para :
  bem_formado G -> bem_formado (_adicionar_aresta G de para).
Proof.
  intros [Hk Hl Hp Hs Hv Ho Hd]. unfold _adicionar_aresta.
  destruct (String.eqb para de) eqn:E; [constructor; assumption|].
  apply String.eqb_neq in E.
  set (g1 := match get (grafo G) de with Some _ => grafo G | None => set (grafo G) de [] end).
  set (row := get_default g1 de []).
  set (row' := match get row para with Some w => set row para (w + 1) | None => set row para 1 end).
  set (g2 := set g1 de row').
  set (g3 := if mem g2 para then g2 else set g2 para []).
  assert (Hg1 : forall u r, In (u, r) g1 -> In (u, r) (grafo G) \/ (u = de /\ r = [])).
  { subst g1. intros u r. destruct (get (grafo G) de); auto.
    intros H. apply in_set_inv in H. tauto. }
  assert (Hk1 : NoDup (keys g1)).
  { subst g1. destruct (get (grafo G) de); auto. now apply NoDup_keys_set. }
  assert (Hrow : row = [] \/ In (de, row) (grafo G)).
  { subst row. unfold get_default. destruct (get g1 de) eqn:E1; auto.
    apply get_some_in in E1. apply Hg1 in E1. destruct E1 as [|[_ ->]]; auto. }
  assert (Hrow' : forall v w, In (v, w) row' ->
            (v = para /\ 1 <= w) \/ In (v, w) row).
  { subst row'. intros v w. destruct (get row para) eqn:E1; intros H;
      apply in_set_inv in H; destruct H as [[-> ->]|H]; auto; left; split; auto; try lia.
    apply get_some_in in E1. destruct Hrow as [Hr|Hr].
    - rewrite Hr in E1. destruct E1.
    - assert (1 <= z); [|lia]. apply (Hp de para). apply in_arestas. eauto. }
  assert (Hndrow : NoDup (keys row')).
  { assert (NoDup (keys row)).
    { destruct Hrow as [->|Hr]; [constructor | eauto]. }
    subst row'. destruct (get row para); now apply NoDup_keys_set. }
  assert (Hg3 : forall u r, In (u, r) g3 ->
            In (u, r) (grafo G) \/ (u = de /\ r = row') \/ r = []).
  { intros u r H. assert (H2 : In (u, r) g2 \/ r = []).
    { subst g3. destruct (mem g2 para); auto.
      apply in_set_inv in H. tauto. }
    destruct H2 as [H2|]; auto. subst g2. apply in_set_inv in H2.
    destruct H2 as [|H2]; auto. apply Hg1 in H2. tauto. }
  assert (Hkeys3 : forall u, In u (keys g3) <-> u = de \/ u = para \/ In u (keys (grafo G))).
  { intros u. assert (H2 : In u (keys g2) <-> u = de \/ In u (keys (grafo G))).
    { subst g2. rewrite in_keys_set. subst g1. destruct (get (grafo G) de) eqn:E1.
      - tauto.
      - rewrite in_keys_set. tauto. }
    subst g3. destruct (mem g2 para) eqn:E1.
    - apply mem_true_iff in E1. rewrite H2 in *. intuition (subst; auto).
    - rewrite in_keys_set. rewrite H2. tauto. }
  assert (Hare : forall u v w, In (u, v, w) (arestas {| grafo := g3; vertices := set_update (vertices G) [de; para] |}) ->
            In (u, v, w) (arestas G) \/ (u = de /\ v = para /\ 1 <= w)).
  { intros u v w H. apply in_arestas in H. destruct H as (r & Hr & Hin). simpl in Hr.
    apply Hg3 in Hr. destruct Hr as [Hr | [[-> ->] | ->]].
    - left. apply in_arestas. eauto.
    - apply Hrow' in Hin. destruct Hin as [[-> ?]|Hin]; auto.
      destruct Hrow as [Hr|Hr]; [rewrite Hr in Hin; destruct Hin|].
      left. apply in_arestas. eauto.
    - destruct Hin. }
  constructor; simpl.
  - subst g3. destruct (mem g2 para); subst g2; repeat apply NoDup_keys_set; auto.
  - intros u r H. apply Hg3 in H. destruct H as [H | [[_ ->] | ->]]; eauto. constructor.
  - intros u v w H. apply Hare in H. destruct H as [H|(_ & _ & H)]; eauto.
  - intros u v w H. apply Hare in H. destruct H as [H|(-> & -> & _)]; eauto.
  - unfold set_update. simpl. now repeat apply NoDup_set_add.
  - intros u H. apply Hkeys3 in H. unfold set_update. simpl.
    rewrite !in_set_add. intuition.
  - intros u v w H. apply Hare in H. apply Hkeys3.
    destruct H as [H|(-> & -> & _)]; eauto.
Qed.

Lemma bem_formado_inserir_todas G pares :
  bem_formado G -> bem_formado (inserir_todas G pares).
Proof.
  revert G. induction pares as [|p pares IH]; intros G H; simpl; auto.
  apply IH. now apply bem_formado_adicionar.
Qed.

(** ** Sums over dictionaries and the degree balance law *)

Lemma py_sum_app l1 l2 : py_sum (l1 ++ l2) = py_sum l1 + py_sum l2.
Proof.
  unfold py_sum. induction l1 as [|x l1 IH]; simpl; lia.
Qed.

Lemma soma_valores_set {V : Type} (h : V -> Z) (d : dict V) k x :
  soma_valores h (set d k x) = soma_valores h d - valor_ou_zero h (get d k) + h x.
Proof.
  unfold soma_valores. induction d as [|[k' v'] d IH]; simpl.
  - lia.
  - destruct (String.eqb k k') eqn:E; simpl; lia.
Qed.

Lemma py_sum_values_set (d : dict Z) k x :
  py_sum (values (set d k x)) = py_sum (values d) - get_default d k 0 + x.
Proof.
  unfold get_default. induction d as [|[k' v'] d IH]; simpl.
  - lia.
  - destruct (String.eqb k k') eqn:E; simpl; lia.
Qed.

Lemma py_sum_ext_one (F G : string -> Z) (vs : list string) (k : string) :
  NoDup vs -> In k vs -> (forall v, v <> k -> F v = G v) ->
  py_sum (map F vs) = py_sum (map G vs) + F k - G k.
Proof.
  intros Hnd Hin Hext. induction vs as [|v vs IH]; simpl; [destruct Hin|].
  inversion Hnd as [|? ? Hni Hnd']; subst.
  destruct Hin as [->|Hin].
  - assert (E : map F vs = map G vs).
    { apply map_ext_in. intros v Hv. apply Hext. intros ->. contradiction. }
    rewrite E. lia.
  - rewrite IH by assumption. rewrite (Hext v); [lia|]. intros ->. contradiction.
Qed.

(** Summing a lookup over a set that covers the keys is summing the values. *)
Lemma soma_sobre_conjunto {V : Type} (h : V -> Z) (d : dict V) (vs : list string) :
  NoDup vs -> NoDup (keys d) -> incl (keys d) vs ->
  py_sum (map (fun v => valor_ou_zero h (get d v)) vs) = soma_valores h d.
Proof.
  intros Hvs. induction d as [|[k x] d IH]; intros Hnd Hincl.
  - unfold soma_valores. simpl. clear Hvs Hnd Hincl.
    induction vs as [|v vs IHv]; simpl; auto.
  - inversion Hnd as [|? ? Hni Hnd']; subst.
    assert (Hk : In k vs) by (apply Hincl; now left).
    rewrite (py_sum_ext_one _ (fun v => valor_ou_zero h (get d v)) vs k); auto.
    + rewrite IH; auto.
      * simpl. rewrite String.eqb_refl.
        assert (E : get d k = None) by now apply get_none_iff.
        rewrite E. unfold soma_valores. simpl. lia.
      * intros v Hv. apply Hincl. now right.
    + intros v Hne. simpl. destruct (String.eqb v k) eqn:E; auto.
      apply String.eqb_eq in E. contradiction.
Qed.

Lemma peso_total_linhas G :
  peso_total G = soma_valores (fun row => py_sum (values row)) (grafo G).
Proof.
  unfold peso_total, arestas, soma_valores.
  induction (grafo G) as [|[u row] g IH]; simpl; auto.
  rewrite map_app, py_sum_app, IH. f_equal.
  unfold values. rewrite map_map. reflexivity.
Qed.

Lemma soma_grau_saida G :
  bem_formado G ->
  py_sum (map (grau_saida G) (vertices G)) = peso_total G.
Proof.
  intros H. rewrite peso_total_linhas.
  rewrite <- (soma_sobre_conjunto _ (grafo G) (vertices G)).
  - reflexivity.
  - apply H.
  - apply H.
  - intros u. apply H.
Qed.

Lemma soma_somar_entrada (row graus : dict Z) :
  py_sum (values (fold_left somar_entrada row graus)) =
  py_sum (values graus) + py_sum (values row).
Proof.
  revert graus. induction row as [|[v w] row IH]; intros graus; simpl; [lia|].
  rewrite IH. unfold somar_entrada. simpl.
  rewrite py_sum_values_set. lia.
Qed.

Lemma chaves_somar_entrada (row graus : dict Z) k :
  In k (keys (fold_left somar_entrada row graus)) <->
  In k (keys graus) \/ In k (keys row).
Proof.
  revert graus. induction row as [|[v w] row IH]; intros graus; simpl; [tauto|].
  rewrite IH. unfold somar_entrada. simpl. rewrite in_keys_set.
  intuition.
Qed.

Lemma NoDup_somar_entrada (row graus : dict Z) :
  NoDup (keys graus) -> NoDup (keys (fold_left somar_entrada row graus)).
Proof.
  revert graus. induction row as [|[v w] row IH]; intros graus H; simpl; auto.
  apply IH. unfold somar_entrada. now apply NoDup_keys_set.
Qed.

Lemma graus_entrada_geral (g : dict (dict Z)) (graus : dict Z) :
  let r := fold_left (fun graus r => fold_left somar_entrada (snd r) graus) g graus in
  py_sum (values r) =
    py_sum (values graus) + soma_valores (fun row => py_sum (values row)) g /\
  (NoDup (keys graus) -> NoDup (keys r)) /\
  (forall k, In k (keys r) <->
             In k (keys graus) \/ exists u row, In (u, row) g /\ In k (keys row)).
Proof.
  revert graus. induction g as [|[u row] g IH]; intros graus; simpl.
  - unfold soma_valores. simpl. split; [lia|]. split; auto.
    intros k. split; auto. intros [H|(? & ? & [] & _)]. exact H.
  - destruct (IH (fold_left somar_entrada row graus)) as (H1 & H2 & H3).
    split; [|split].
    + rewrite H1, soma_somar_entrada. unfold soma_valores. simpl. lia.
    + intros H. apply H2. now apply NoDup_somar_entrada.
    + intros k. rewrite H3, chaves_somar_entrada. split.
      * intros [[H|H]|(u' & row' & H & H')]; eauto 7.
      * intros [H|(u' & row' & [[= <- <-]|H] & H')]; eauto 7.
Qed.

Lemma soma_grau_entrada G :
  bem_formado G ->
  py_sum (map (grau_entrada G) (vertices G)) = peso_total G.
Proof.
  intros H. rewrite peso_total_linhas.
  destruct (graus_entrada_geral (grafo G) []) as (H1 & H2 & H3).
  fold (graus_entrada G) in H1, H2, H3. simpl in H1.
  rewrite <- H1.
  pose proof (soma_sobre_conjunto (fun x => x) (graus_entrada G) (vertices G)) as E.
  unfold soma_valores in E. unfold values.
  rewrite (map_ext snd (fun e => snd e)) by reflexivity.
  rewrite <- E.
  - apply f_equal, map_ext. intros v. unfold grau_entrada, get_default.
    now destruct (get (graus_entrada G) v).
  - apply H.
  - apply H2. constructor.
  - intros k Hk. apply H3 in Hk. destruct Hk as [[]|(u & row & Hin & Hk)].
    apply in_keys_get in Hk. destruct Hk as (w & Hk). apply get_some_in in Hk.
    apply (bf_origens G H). apply (bf_destinos G H u k w).
    apply in_arestas. eauto.
Qed.

Lemma peso_total_adicionar G de para :
  peso_total (_adicionar_aresta G de para) =
  peso_total G + (if String.eqb para de then 0 else 1).
Proof.
  unfold _adicionar_aresta. destruct (String.eqb para de) eqn:E; [lia|].
  rewrite !peso_total_linhas. simpl.
  set (h := fun row : dict Z => py_sum (values row)).
  set (g1 := match get (grafo G) de with Some _ => grafo G | None => set (grafo G) de [] end).
  assert (H1 : soma_valores h g1 = soma_valores h (grafo G)).
  { subst g1. destruct (get (grafo G) de) eqn:E1; auto.
    rewrite soma_valores_set, E1. simpl. unfold h. simpl. lia. }
  set (row := get_default g1 de []).
  assert (Hrow : valor_ou_zero h (get g1 de) = h row).
  { subst row. unfold get_default. destruct (get g1 de); reflexivity. }
  set (row' := match get row para with Some w => set row para (w + 1) | None => set row para 1 end).
  assert (H2 : h row' = h row + 1).
  { subst row' h. simpl.
    destruct (get row para) eqn:E1; rewrite py_sum_values_set;
      unfold get_default; rewrite E1; lia. }
  set (g2 := set g1 de row').
  assert (H3 : soma_valores h g2 = soma_valores h (grafo G) + 1).
  { subst g2. rewrite soma_valores_set. lia. }
  destruct (mem g2 para) eqn:E3; [lia|].
  rewrite soma_valores_set. unfold mem in E3.
  destruct (get g2 para); [discriminate|]. simpl. unfold h at 2. simpl. lia.
Qed.

Lemma peso_total_inserir_todas G pares :
  peso_total (inserir_todas G pares) = peso_total G + peso_inserido pares.
Proof.
  revert G. induction pares as [|[de para] pares IH]; intros G.
  - simpl. unfold peso_inserido. simpl. lia.
  - simpl. rewrite IH, peso_total_adicionar. unfold peso_inserido. simpl.
    destruct (String.eqb para de); simpl; lia.
Qed.

(** C8: in a graph built by edge insertions, the weighted out-degrees and the
    weighted in-degrees of the vertices both add up to the total inserted
    weight, one unit per inserted pair that is not a self-loop. *)
Theorem lei_do_balanco_de_graus (pares : list (string * string)) :
  let G := inserir_todas novo pares in
  py_sum (map (grau_saida G) (vertices G)) = py_sum (map (grau_entrada G) (vertices G)) /\
  py_sum (map (grau_entrada G) (vertices G)) = peso_inserido pares /\
  peso_total G = peso_inserido pares.
Proof.
  intros G.
  assert (Hbf : bem_formado G).
  { apply bem_formado_inserir_todas, bem_formado_novo. }
  assert (Ht : peso_total G = peso_inserido pares).
  { subst G. rewrite peso_total_inserir_todas. reflexivity. }
  rewrite soma_grau_saida, soma_grau_entrada by assumption. auto.
Qed.

(** ** Breadth-first search *)

Lemma alcanca_trans g a b c : alcanca g a b -> alcanca g b c -> alcanca g a c.
Proof.
  intros Hab Hbc. induction Hbc; auto. eapply alcanca_passo; eauto.
Qed.

Lemma alcanca_frente g a b c : sucessor g a b -> alcanca g b c -> alcanca g a c.
Proof.
  intros H. apply alcanca_trans. eapply alcanca_passo; [constructor | exact H].
Qed.

Lemma alcanca_inverso g g' :
  (forall a b, sucessor g' a b <-> sucessor g b a) ->
  forall o v, alcanca g' o v <-> alcanca g v o.
Proof.
  intros Hs. split; intros H; induction H; try constructor.
  - eapply alcanca_frente; eauto. now apply Hs.
  - eapply alcanca_frente; eauto. now apply Hs.
Qed.

Lemma pendentes_vazio g : pendentes g [] = numero_de_arestas {| grafo := g; vertices := [] |}.
Proof.
  unfold pendentes, numero_de_arestas. simpl. reflexivity.
Qed.

Lemma pendentes_mono g vs vs' :
  incl vs vs' -> (pendentes g vs' <= pendentes g vs)%nat.
Proof.
  intros Hincl. unfold pendentes. induction g as [|[u row] g IH]; simpl; auto.
  destruct (set_mem u vs) eqn:E.
  - apply set_mem_iff in E. apply Hincl in E. apply set_mem_iff in E.
    rewrite E. simpl. exact IH.
  - destruct (set_mem u vs'); simpl; lia.
Qed.

Lemma pendentes_visita g vs atual :
  ~ In atual vs ->
  (pendentes g (set_add vs atual) + List.length (get_default g atual []) <= pendentes g vs)%nat.
Proof.
  intros Hni. unfold get_default.
  assert (Hincl : incl vs (set_add vs atual)).
  { intros x Hx. apply in_set_add. now right. }
  induction g as [|[u row] g IH]; simpl; auto.
  destruct (String.eqb atual u) eqn:E.
  - apply String.eqb_eq in E. subst u.
    assert (E1 : set_mem atual (set_add vs atual) = true).
    { apply set_mem_iff, in_set_add. now left. }
    assert (E2 : set_mem atual vs = false) by now apply set_mem_false_iff.
    unfold pendentes. simpl. rewrite E1, E2.
    pose proof (pendentes_mono g _ _ Hincl) as Hm. unfold pendentes in Hm. lia.
  - unfold pendentes in *. simpl.
    assert (E1 : set_mem u (set_add vs atual) = set_mem u vs).
    { destruct (set_mem u vs) eqn:E2.
      - apply set_mem_iff. apply Hincl. now apply set_mem_iff.
      - apply set_mem_false_iff. rewrite in_set_add. intros [->|H].
        + rewrite String.eqb_refl in E. discriminate.
        + apply set_mem_false_iff in E2. contradiction. }
    rewrite E1. destruct (set_mem u vs); simpl; lia.
Qed.

Section BfsCorreto.

Variable g : dict (dict Z).
Variable v0 : string.

Lemma bfs_loop_correto (fuel : nat) :
  forall visitados fila,
    bfs_inv g v0 visitados fila ->
    (List.length fila + pendentes g visitados <= fuel)%nat ->
    exists r, bfs_loop fuel g visitados fila = Done r /\
              forall x, In x r <-> alcanca g v0 x.
Proof.
  induction fuel as [|fuel IH]; intros visitados fila (I1 & I2 & I3) Hm.
  - destruct fila as [|atual resto]; [|simpl in Hm; lia].
    exists visitados. split; [reflexivity|].
    intros x. split; [intros; apply I1; auto|].
    intros H. induction H.
    + destruct I3 as [|[]]; assumption.
    + destruct (I2 u v IHalcanca H0) as [|[]]; assumption.
  - destruct fila as [|atual resto].
    + exists visitados. split; [reflexivity|].
      intros x. split; [intros; apply I1; auto|].
      intros H. induction H.
      * destruct I3 as [|[]]; assumption.
      * destruct (I2 u v IHalcanca H0) as [|[]]; assumption.
    + simpl. destruct (set_mem atual visitados) eqn:E.
      * apply set_mem_iff in E. apply IH.
        -- split; [|split].
           ++ intros x [H|H]; apply I1; simpl; auto.
           ++ intros u v Hu Hs. destruct (I2 u v Hu Hs) as [H|[H|H]]; auto.
              subst. auto.
           ++ destruct I3 as [H|[H|H]]; auto. subst. auto.
        -- simpl in Hm. lia.
      * apply set_mem_false_iff in E. apply IH.
        -- split; [|split].
           ++ intros x [H|H].
              ** apply in_set_add in H. destruct H as [->|H]; apply I1; simpl; auto.
              ** apply in_app_iff in H. destruct H as [H|H].
                 --- apply I1. simpl. auto.
                 --- apply (alcanca_passo g v0 atual); [apply I1; simpl; auto | exact H].
           ++ intros u v Hu Hs. rewrite in_set_add, in_app_iff.
              apply in_set_add in Hu. destruct Hu as [->|Hu].
              ** right. right. exact Hs.
              ** destruct (I2 u v Hu Hs) as [H|[H|H]]; auto.
           ++ rewrite in_set_add. destruct I3 as [H|[H|H]]; auto.
              right. apply in_app_iff. auto.
        -- pose proof (pendentes_visita g visitados atual E) as Hp.
           rewrite length_app. unfold keys. rewrite length_map.
           simpl in Hm. lia.
Qed.

Lemma bfs_correto (fuel : nat) :
  (S (pendentes g []) <= fuel)%nat ->
  exists r, bfs fuel g v0 = Done r /\ forall x, In x r <-> alcanca g v0 x.
Proof.
  intros Hm. apply bfs_loop_correto.
  - split; [|split].
    + intros x [[]|[<-|[]]]. constructor.
    + intros u v [].
    + right. now left.
  - simpl. lia.
Qed.

End BfsCorreto.

(** ** The transposed graph *)

Lemma length_set {V : Type} (d : dict V) k v :
  (List.length (set d k v) <= S (List.length d))%nat.
Proof.
  induction d as [|[k' v'] d IH]; simpl; auto.
  destruct (String.eqb k k'); simpl; lia.
Qed.

Lemma total_linhas_set (g : dict (dict Z)) k row :
  (total_linhas (set g k row) + List.length (get_default g k []) =
   total_linhas g + List.length row)%nat.
Proof.
  unfold total_linhas, get_default. induction g as [|[k' r'] g IH]; simpl.
  - lia.
  - destruct (String.eqb k k'); simpl; lia.
Qed.

Lemma total_linhas_inverter u (row : dict Z) rev :
  (total_linhas (fold_left (inverter_aresta u) row rev) <=
   total_linhas rev + List.length row)%nat.
Proof.
  revert rev. induction row as [|[v w] row IH]; intros rev; simpl; [lia|].
  etransitivity; [apply IH|]. unfold inverter_aresta. simpl.
  pose proof (total_linhas_set rev v (set (get_default rev v []) u w)).
  pose proof (length_set (get_default rev v []) u w). lia.
Qed.

Lemma total_linhas_reverso_geral g rev :
  (total_linhas (fold_left (fun rev r => fold_left (inverter_aresta (fst r)) (snd r) rev) g rev)
   <= total_linhas rev + total_linhas g)%nat.
Proof.
  revert rev. induction g as [|[u row] g IH]; intros rev; simpl; [lia|].
  etransitivity; [apply IH|].
  pose proof (total_linhas_inverter u row rev). unfold total_linhas in *. simpl. lia.
Qed.

Lemma total_linhas_reverso g : (total_linhas (reverso g) <= total_linhas g)%nat.
Proof.
  apply (total_linhas_reverso_geral g []).
Qed.

Lemma sucessor_inverter u0 (row : dict Z) rev v u :
  sucessor (fold_left (inverter_aresta u0) row rev) v u <->
  sucessor rev v u \/ (u = u0 /\ In v (keys row)).
Proof.
  revert rev. induction row as [|[v' w] row IH]; intros rev; simpl.
  - tauto.
  - rewrite IH. unfold sucessor at 1. unfold inverter_aresta. simpl.
    rewrite get_default_set. destruct (String.eqb v' v) eqn:E.
    + apply String.eqb_eq in E. subst v'. rewrite in_keys_set.
      unfold sucessor. tauto.
    + apply String.eqb_neq in E. unfold sucessor. intuition congruence.
Qed.

Lemma sucessor_reverso_geral g rev v u :
  sucessor (fold_left (fun rev r => fold_left (inverter_aresta (fst r)) (snd r) rev) g rev) v u <->
  sucessor rev v u \/ exists row, In (u, row) g /\ In v (keys row).
Proof.
  revert rev. induction g as [|[u0 row] g IH]; intros rev; simpl.
  - split; auto. intros [H|(? & [] & _)]. exact H.
  - rewrite IH, sucessor_inverter. split.
    + intros [[H|[-> H]]|(r & H & H')]; eauto.
    + intros [H|(r & [[= <- <-]|H] & H')]; eauto.
Qed.

Lemma sucessor_reverso g v u :
  NoDup (keys g) -> (sucessor (reverso g) v u <-> sucessor g u v).
Proof.
  intros Hnd. unfold reverso. rewrite sucessor_reverso_geral. unfold sucessor at 1.
  simpl. unfold sucessor, get_default. split.
  - intros [[]|(row & Hin & H)]. now rewrite (in_get g u row Hnd Hin).
  - intros H. right. destruct (get g u) as [row|] eqn:E; [|destruct H].
    exists row. split; auto. now apply get_some_in.
Qed.

(** ** Paths and reachability *)

Lemma sucessor_peso G u v :
  sucessor (grafo G) u v <-> exists w, peso G u v = Some w.
Proof.
  unfold sucessor, peso, get_default. destruct (get (grafo G) u) as [row|].
  - split.
    + apply in_keys_get.
    + intros (w & H). eapply get_some_key; eauto.
  - simpl. split; [tauto | intros (w & H); discriminate].
Qed.

Lemma alcancavel_alcanca G o v : alcancavel G o v <-> alcanca (grafo G) o v.
Proof.
  split.
  - intros (c & d & H). induction H; [constructor|].
    eapply alcanca_passo; eauto. apply sucessor_peso. eauto.
  - intros H. induction H.
    + exists [o], 0. constructor.
    + destruct IHalcanca as (c & d & Hc). apply sucessor_peso in H0.
      destruct H0 as (w & Hw). exists (c ++ [v]), (d + w).
      econstructor; eauto.
Qed.

Lemma peso_aresta G u v w :
  bem_formado G -> (peso G u v = Some w <-> In (u, v, w) (arestas G)).
Proof.
  intros Hbf. rewrite in_arestas. unfold peso. split.
  - destruct (get (grafo G) u) as [row|] eqn:E; [|discriminate].
    intros H. exists row. split; now apply get_some_in.
  - intros (row & Hin & H).
    rewrite (in_get _ _ _ (bf_chaves G Hbf) Hin).
    apply in_get; auto. eapply bf_linhas; eauto.
Qed.

Lemma alcanca_vertices G o v :
  bem_formado G -> In o (vertices G) -> alcanca (grafo G) o v -> In v (vertices G).
Proof.
  intros Hbf Ho H. induction H; auto.
  apply sucessor_peso in H0. destruct H0 as (w & Hw).
  apply (peso_aresta G u v w Hbf) in Hw.
  eapply bf_origens; eauto. eapply bf_destinos; eauto.
Qed.

Lemma alcanca_origem_vertice G o v :
  bem_formado G -> In v (vertices G) -> alcanca (grafo G) o v -> In o (vertices G).
Proof.
  intros Hbf Hv H. induction H; auto.
  apply IHalcanca. apply sucessor_peso in H0. destruct H0 as (w & Hw).
  unfold peso in Hw. destruct (get (grafo G) u) eqn:E; [|discriminate].
  eapply bf_origens; eauto. eapply get_some_key; eauto.
Qed.

Lemma fortemente_conexo_decide (G : GrafoEnron) (fuel : nat) :
  bem_formado G -> (fuel_bfs G <= fuel)%nat ->
  exists b, _eh_fortemente_conexo fuel G = Done b /\
            (b = true <-> fortemente_conexo G).
Proof.
  intros Hbf Hfuel. unfold _eh_fortemente_conexo.
  destruct (vertices G) as [|v0 vs] eqn:Ev.
  - exists true. split; [reflexivity|]. split; auto.
    intros _ u v Hu. rewrite Ev in Hu. destruct Hu.
  - assert (Hv0 : In v0 (vertices G)) by (rewrite Ev; now left).
    unfold fuel_bfs in Hfuel.
    destruct (bfs_correto (grafo G) v0 fuel) as (normal & E1 & Hn).
    { rewrite pendentes_vazio. exact Hfuel. }
    destruct (bfs_correto (reverso (grafo G)) v0 fuel) as (inverso & E2 & Hi).
    { rewrite pendentes_vazio. pose proof (total_linhas_reverso (grafo G)) as H.
      unfold total_linhas in H. unfold numero_de_arestas in *. simpl. lia. }
    rewrite E1, E2. simpl. eexists. split; [reflexivity|].
    rewrite andb_true_iff, !set_eqb_iff. rewrite <- Ev.
    assert (Hrev : forall x, alcanca (reverso (grafo G)) v0 x <-> alcanca (grafo G) x v0).
    { apply alcanca_inverso. intros a b. apply sucessor_reverso. apply Hbf. }
    split.
    + intros [H1 H2]. intros u v Hu Hv. apply alcancavel_alcanca.
      apply alcanca_trans with v0.
      * apply Hrev, Hi, H2, Hu.
      * apply Hn, H1, Hv.
    + intros H. split; intros x.
      * rewrite Hn. split.
        -- now apply alcanca_vertices.
        -- intros Hx. apply alcancavel_alcanca. now apply H.
      * rewrite Hi, Hrev. split.
        -- now apply alcanca_origem_vertice.
        -- intros Hx. apply alcancavel_alcanca. now apply H.
Qed.

(** C4: [_eh_fortemente_conexo] returns, and it returns [True] exactly when
    the vertex set is empty or every vertex is reachable from every other
    vertex along the edges. *)
Theorem eh_fortemente_conexo_correto (G : GrafoEnron) (fuel : nat) :
  bem_formado G -> (fuel_bfs G <= fuel)%nat ->
  exists b, _eh_fortemente_conexo fuel G = Done b /\
            (b = true <-> vertices G = [] \/ fortemente_conexo G).
Proof.
  intros Hbf Hfuel.
  destruct (fortemente_conexo_decide G fuel Hbf Hfuel) as (b & Eb & Hb).
  exists b. split; [exact Eb|]. rewrite Hb. split; [now right|].
  intros [Hvazio|Hfc]; [|exact Hfc].
  intros u v Hu. rewrite Hvazio in Hu. destruct Hu.
Qed.

Lemma eh_fortemente_conexo_correto_witness :
  bem_formado ciclo_abc /\ (fuel_bfs ciclo_abc <= 4)%nat /\
  exists b, _eh_fortemente_conexo 4 ciclo_abc = Done b /\
            (b = true <-> vertices ciclo_abc = [] \/ fortemente_conexo ciclo_abc).
Proof.
  assert (H : bem_formado ciclo_abc).
  { apply bem_formado_inserir_todas, bem_formado_novo. }
  split; [exact H|]. split; [vm_compute; lia|].
  apply (eh_fortemente_conexo_correto ciclo_abc 4 H). vm_compute. lia.
Defined.

(** ** Degrees read off the edge list *)

Lemma filtro_origem u v (row : dict Z) :
  py_sum (map snd (filter (fun e : string * string * Z => String.eqb (fst (fst e)) v)
                     (map (fun e : string * Z => (u, fst e, snd e)) row))) =
  if String.eqb u v then py_sum (values row) else 0.
Proof.
  induction row as [|[x w] row IH]; simpl.
  - now destruct (String.eqb u v).
  - destruct (String.eqb u v) eqn:E; simpl; rewrite IH; auto.
Qed.

Lemma filtro_destino u v (row : dict Z) :
  py_sum (map snd (filter (fun e : string * string * Z => String.eqb (snd (fst e)) v)
                     (map (fun e : string * Z => (u, fst e, snd e)) row))) =
  py_sum (map snd (filter (fun e : string * Z => String.eqb (fst e) v) row)).
Proof.
  induction row as [|[x w] row IH]; simpl; auto.
  destruct (String.eqb x v); simpl; rewrite IH; auto.
Qed.

Lemma grau_saida_arestas_eq G v :
  bem_formado G -> grau_saida G v = grau_saida_arestas G v.
Proof.
  intros Hbf. pose proof (bf_chaves G Hbf) as Hnd.
  unfold grau_saida, grau_saida_arestas, arestas.
  induction (grafo G) as [|[u row] g IH]; simpl; auto.
  inversion Hnd as [|? ? Hni Hnd']; subst.
  rewrite filter_app, map_app, py_sum_app, filtro_origem, <- IH by assumption.
  rewrite (String.eqb_sym v u). destruct (String.eqb u v) eqn:E.
  - apply String.eqb_eq in E. subst u.
    assert (E1 : get g v = None) by now apply get_none_iff.
    rewrite E1. lia.
  - lia.
Qed.

Lemma get_somar_entrada (row graus : dict Z) v :
  get_default (fold_left somar_entrada row graus) v 0 =
  get_default graus v 0 +
  py_sum (map snd (filter (fun e : string * Z => String.eqb (fst e) v) row)).
Proof.
  revert graus. induction row as [|[x w] row IH]; intros graus; simpl; [lia|].
  rewrite IH. unfold somar_entrada. simpl. rewrite get_default_set.
  destruct (String.eqb x v) eqn:E; simpl; [|lia].
  apply String.eqb_eq in E. subst x. lia.
Qed.

Lemma grau_entrada_arestas_eq G v : grau_entrada G v = grau_entrada_arestas G v.
Proof.
  unfold grau_entrada, graus_entrada, grau_entrada_arestas, arestas.
  assert (H : forall graus,
    get_default (fold_left (fun graus r => fold_left somar_entrada (snd r) graus) (grafo G) graus) v 0 =
    get_default graus v 0 +
    py_sum (map snd (filter (fun e : string * string * Z => String.eqb (snd (fst e)) v)
              (flat_map (fun r => map (fun e : string * Z => (fst r, fst e, snd e)) (snd r)) (grafo G))))).
  { induction (grafo G) as [|[u row] g IH]; intros graus; simpl; [lia|].
    rewrite IH, get_somar_entrada, filter_app, map_app, py_sum_app, filtro_destino. lia. }
  rewrite H. reflexivity.
Qed.

(** ** The Eulerian check *)

Lemma inconsistencias_vazia G :
  inconsistencias G = [] <->
  forall v, In v (vertices G) -> grau_entrada G v = grau_saida G v.
Proof.
  unfold inconsistencias. induction (vertices G) as [|v vs IH]; simpl.
  - tauto.
  - destruct (grau_entrada G v =? grau_saida G v) eqn:E; simpl.
    + apply Z.eqb_eq in E. rewrite IH. split.
      * intros H x [<-|Hx]; auto.
      * auto.
    + apply Z.eqb_neq in E. split; [discriminate|]. intros H. exfalso. auto.
Qed.

Lemma ciclo_forma (a b c : string) :
  a <> b -> b <> c -> c <> a ->
  inserir_todas novo [(a, b); (b, c); (c, a)] =
  {| grafo := [(a, [(b, 1)]); (b, [(c, 1)]); (c, [(a, 1)])]; vertices := [a; b; c] |}.
Proof.
  intros Hab Hbc Hca.
  assert (Eab : String.eqb a b = false) by now apply String.eqb_neq.
  assert (Eba : String.eqb b a = false) by (apply String.eqb_neq; congruence).
  assert (Ebc : String.eqb b c = false) by now apply String.eqb_neq.
  assert (Ecb : String.eqb c b = false) by (apply String.eqb_neq; congruence).
  assert (Eca : String.eqb c a = false) by now apply String.eqb_neq.
  assert (Eac : String.eqb a c = false) by (apply String.eqb_neq; congruence).
  unfold inserir_todas, _adicionar_aresta, novo, set_update, set_add, set_mem, mem, get_default.
  simpl.
  repeat (rewrite ?String.eqb_refl, ?Eab, ?Eba, ?Ebc, ?Ecb, ?Eca, ?Eac; simpl).
  reflexivity.
Qed.

Lemma ciclo_euleriano (a b c : string) (fuel : nat) :
  a <> b -> b <> c -> c <> a -> (4 <= fuel)%nat ->
  grafo_euleriano fuel (inserir_todas novo [(a, b); (b, c); (c, a)]) = Done (true, []).
Proof.
  intros Hab Hbc Hca Hfuel. rewrite ciclo_forma by assumption.
  assert (Eab : String.eqb a b = false) by now apply String.eqb_neq.
  assert (Eba : String.eqb b a = false) by (apply String.eqb_neq; congruence).
  assert (Ebc : String.eqb b c = false) by now apply String.eqb_neq.
  assert (Ecb : String.eqb c b = false) by (apply String.eqb_neq; congruence).
  assert (Eca : String.eqb c a = false) by now apply String.eqb_neq.
  assert (Eac : String.eqb a c = false) by (apply String.eqb_neq; congruence).
  do 4 (destruct fuel as [|fuel]; [lia|]).
  unfold grafo_euleriano, inconsistencias, grau_entrada, grau_saida, graus_entrada,
    somar_entrada, _eh_fortemente_conexo, bfs, reverso, inverter_aresta.
  repeat (progress (unfold set_eqb, set_subset, set_add, set_mem, get_default; simpl;
                    rewrite ?String.eqb_refl, ?Eab, ?Eba, ?Ebc, ?Ecb, ?Eca, ?Eac)).
  destruct fuel;
    repeat (progress (unfold set_eqb, set_subset, set_add, set_mem, get_default; simpl;
                      rewrite ?String.eqb_refl, ?Eab, ?Eba, ?Ebc, ?Ecb, ?Eca, ?Eac));
    reflexivity.
Qed.

(** C3: [grafo_euleriano] returns; its verdict is [True] exactly when every
    vertex has equal weighted in-degree and out-degree and the graph is
    strongly connected; a [True] verdict comes with no reasons and a [False]
    verdict with at least one; the directed 3-cycle with unit weights is
    Eulerian with no reasons. *)
Theorem grafo_euleriano_correto (G : GrafoEnron) (fuel : nat) :
  bem_formado G -> (fuel_bfs G <= fuel)%nat ->
  (exists veredito problemas,
      grafo_euleriano fuel G = Done (veredito, problemas) /\
      (veredito = true <->
         (forall v, In v (vertices G) ->
                    grau_entrada_arestas G v = grau_saida_arestas G v) /\
         fortemente_conexo G) /\
      (veredito = true -> problemas = []) /\
      (veredito = false -> problemas <> [])) /\
  (forall a b c fuel', a <> b -> b <> c -> c <> a -> (4 <= fuel')%nat ->
      grafo_euleriano fuel' (inserir_todas novo [(a, b); (b, c); (c, a)]) = Done (true, [])).
Proof.
  intros Hbf Hfuel. split; [|intros; now apply ciclo_euleriano].
  destruct (fortemente_conexo_decide G fuel Hbf Hfuel) as (conexo & Ec & Hc).
  unfold grafo_euleriano. rewrite Ec. simpl.
  assert (Hinc : inconsistencias G = [] <->
            forall v, In v (vertices G) ->
                      grau_entrada_arestas G v = grau_saida_arestas G v).
  { rewrite inconsistencias_vazia. split; intros H v Hv.
    - rewrite <- grau_entrada_arestas_eq, <- grau_saida_arestas_eq by assumption. auto.
    - rewrite grau_entrada_arestas_eq, grau_saida_arestas_eq by assumption. auto. }
  pose proof Hc as Hsc.
  do 2 eexists. split; [reflexivity|].
  destruct (inconsistencias G) as [|m ms] eqn:Ei; destruct conexo; simpl.
  - split; [|split]; [|reflexivity|discriminate].
    split; [|reflexivity]. intros _. split; [apply Hinc | apply Hsc]; reflexivity.
  - split; [|split]; [|discriminate|discriminate].
    split; [discriminate|]. intros [_ H]. apply Hsc in H. discriminate.
  - split; [|split]; [|discriminate|discriminate].
    split; [discriminate|]. intros [H _]. apply Hinc in H. discriminate.
  - split; [|split]; [|discriminate|discriminate].
    split; [discriminate|]. intros [H _]. apply Hinc in H. discriminate.
Qed.

Lemma grafo_euleriano_correto_witness :
  bem_formado ciclo_abc /\ (fuel_bfs ciclo_abc <= 4)%nat /\
  ((exists veredito problemas,
      grafo_euleriano 4 ciclo_abc = Done (veredito, problemas) /\
      (veredito = true <->
         (forall v, In v (vertices ciclo_abc) ->
                    grau_entrada_arestas ciclo_abc v = grau_saida_arestas ciclo_abc v) /\
         fortemente_conexo ciclo_abc) /\
      (veredito = true -> problemas = []) /\
      (veredito = false -> problemas <> [])) /\
  (forall a b c fuel', a <> b -> b <> c -> c <> a -> (4 <= fuel')%nat ->
      grafo_euleriano fuel' (inserir_todas novo [(a, b); (b, c); (c, a)]) = Done (true, []))).
Proof.
  assert (H : bem_formado ciclo_abc).
  { apply bem_formado_inserir_todas, bem_formado_novo. }
  split; [exact H|]. split; [vm_compute; lia|].
  apply (grafo_euleriano_correto ciclo_abc 4 H). vm_compute. lia.
Defined.

(** ** Searches from a vertex without outgoing edges *)

Lemma caminhos_sem_vizinhos (G : GrafoEnron) (origem : string) (fuel : nat) :
  get_default (grafo G) origem [] = [] -> (1 <= fuel)%nat ->
  _dijkstra_com_caminhos fuel G origem = Done ([(origem, 0)], [(origem, [origem])]).
Proof.
  intros Hrow Hfuel. destruct fuel as [|fuel]; [lia|].
  unfold _dijkstra_com_caminhos. simpl. rewrite Hrow. simpl.
  destruct fuel; reflexivity.
Qed.

Lemma ate_sem_vizinhos (G : GrafoEnron) (origem : string) (distancia_max : Z) (fuel : nat) :
  get_default (grafo G) origem [] = [] -> (1 <= fuel)%nat ->
  vertices_ate_distancia fuel G origem distancia_max = Done [].
Proof.
  intros Hrow Hfuel. destruct fuel as [|fuel]; [lia|].
  unfold vertices_ate_distancia. simpl. rewrite String.eqb_refl, Hrow. simpl.
  destruct fuel; simpl; rewrite String.eqb_refl; reflexivity.
Qed.

Lemma linha_de_ausente (G : GrafoEnron) (v : string) :
  bem_formado G -> ~ In v (vertices G) -> get (grafo G) v = None.
Proof.
  intros Hbf Hv. apply get_none_iff. intros H. apply Hv. now apply (bf_origens G Hbf).
Qed.

(** C9: a query from a vertex that is absent from the graph raises no error:
    the lookup of its neighbours yields the empty row, the search with paths
    returns only the origin, at distance 0 with the one-vertex path, and the
    bounded search returns no vertex. *)
Theorem consulta_de_vertice_ausente (G : GrafoEnron) (origem : string)
  (distancia_max : Z) (fuel : nat) :
  bem_formado G -> ~ In origem (vertices G) -> (1 <= fuel)%nat ->
  get_default (grafo G) origem [] = [] /\
  _dijkstra_com_caminhos fuel G origem = Done ([(origem, 0)], [(origem, [origem])]) /\
  vertices_ate_distancia fuel G origem distancia_max = Done [].
Proof.
  intros Hbf Hv Hfuel.
  assert (Hrow : get_default (grafo G) origem [] = []).
  { unfold get_default. now rewrite linha_de_ausente. }
  split; [exact Hrow|]. split.
  - now apply caminhos_sem_vizinhos.
  - now apply ate_sem_vizinhos.
Qed.

Lemma consulta_de_vertice_ausente_witness :
  bem_formado ciclo_abc /\ ~ In "z" (vertices ciclo_abc) /\ (1 <= 1)%nat /\
  get_default (grafo ciclo_abc) "z" [] = [] /\
  _dijkstra_com_caminhos 1 ciclo_abc "z" = Done ([("z", 0)], [("z", ["z"])]) /\
  vertices_ate_distancia 1 ciclo_abc "z" 10 = Done [].
Proof.
  assert (H : bem_formado ciclo_abc).
  { apply bem_formado_inserir_todas, bem_formado_novo. }
  assert (Hz : ~ In "z" (vertices ciclo_abc)).
  { simpl. intros [E|[E|[E|[]]]]; discriminate. }
  split; [exact H|]. split; [exact Hz|]. split; [lia|].
  apply (consulta_de_vertice_ausente ciclo_abc "z" 10 1 H Hz). lia.
Defined.

(** ** Diameter of a graph without edges *)

Lemma sem_arestas_linhas (G : GrafoEnron) :
  numero_de_arestas G = 0%nat -> forall u, get_default (grafo G) u [] = [].
Proof.
  unfold numero_de_arestas, get_default. intros H u.
  induction (grafo G) as [|[k row] g IH]; simpl in *; auto.
  assert (Hrow : row = []) by (destruct row; [reflexivity | simpl in H; lia]).
  subst row. destruct (String.eqb u k); auto.
Qed.

(** C10: on a graph without edges, with or without vertices,
    [calcular_diametro] returns distance 0 and the empty path. *)
Theorem diametro_sem_arestas (G : GrafoEnron) (fuel : nat) :
  numero_de_arestas G = 0%nat -> (1 <= fuel)%nat ->
  calcular_diametro fuel G = Done (0, []).
Proof.
  intros Hna Hfuel. unfold calcular_diametro.
  pose proof (sem_arestas_linhas G Hna) as Hrows.
  induction (vertices G) as [|v vs IH]; simpl; auto.
  rewrite caminhos_sem_vizinhos by auto. simpl.
  unfold atualizar_maior. simpl. rewrite String.eqb_refl. simpl. exact IH.
Qed.

Lemma diametro_sem_arestas_witness :
  numero_de_arestas so_um_vertice = 0%nat /\ (1 <= 1)%nat /\
  calcular_diametro 1 so_um_vertice = Done (0, []).
Proof.
  split; [reflexivity|]. split; [lia|].
  apply (diametro_sem_arestas so_um_vertice 1); [reflexivity | lia].
Defined.

(** ** Shortest paths: the search state and its invariant *)

Lemma in_heappush (h : heap) (x y : Z * string) :
  In y (heappush h x) <-> y = x \/ In y h.
Proof.
  induction h as [|z h IH]; simpl.
  - intuition congruence.
  - destruct (tuple_ltb z x); simpl; rewrite ?IH; intuition congruence.
Qed.

Lemma length_heappush (h : heap) (x : Z * string) :
  List.length (heappush h x) = S (List.length h).
Proof.
  induction h as [|z h IH]; simpl; auto.
  destruct (tuple_ltb z x); simpl; auto.
Qed.

Lemma dentrob_spec lim x : dentrob lim x = true <-> dentro lim x.
Proof.
  destruct lim; simpl; [apply Z.leb_le | tauto].
Qed.

Lemma dentro_menor lim x y : x <= y -> dentro lim y -> dentro lim x.
Proof.
  destruct lim; simpl; auto. lia.
Qed.

Lemma relaxar_ate_eq D dist st e :
  relaxar_ate D dist st e = relaxar (Some D) dist st e.
Proof.
  destruct st as [ds f], e as [v w]. reflexivity.
Qed.

(** Pointwise comparison of two sums over the same list. *)
Lemma py_sum_le {A : Type} (f f' : A -> Z) (l : list A) :
  (forall x, In x l -> f' x <= f x) ->
  py_sum (map f' l) <= py_sum (map f l).
Proof.
  induction l as [|x l IH]; simpl; intros H; [lia|].
  assert (f' x <= f x) by (apply H; now left).
  assert (py_sum (map f' l) <= py_sum (map f l)) by (apply IH; intros; apply H; now right).
  lia.
Qed.

Lemma py_sum_le_um {A : Type} (f f' : A -> Z) (l : list A) (x0 : A) (k : Z) :
  (forall x, In x l -> f' x <= f x) -> In x0 l -> f' x0 + k <= f x0 ->
  py_sum (map f' l) + k <= py_sum (map f l).
Proof.
  induction l as [|x l IH]; simpl; intros H Hin Hk; [destruct Hin|].
  destruct Hin as [->|Hin].
  - assert (py_sum (map f' l) <= py_sum (map f l)) by (apply py_sum_le; intros; apply H; now right).
    lia.
  - assert (f' x <= f x) by (apply H; now left).
    assert (py_sum (map f' l) + k <= py_sum (map f l)) by (apply IH; auto).
    lia.
Qed.

Lemma py_sum_nonneg {A : Type} (f : A -> Z) (l : list A) :
  (forall x, In x l -> 0 <= f x) -> 0 <= py_sum (map f l).
Proof.
  induction l as [|x l IH]; simpl; intros H; [lia|].
  assert (0 <= f x) by (apply H; now left).
  assert (0 <= py_sum (map f l)) by (apply IH; intros; apply H; now right).
  lia.
Qed.

Lemma py_sum_cota {A : Type} (f : A -> Z) (l : list A) (M : Z) :
  (forall x, In x l -> f x <= M) -> 0 <= M ->
  py_sum (map f l) <= Z.of_nat (List.length l) * M.
Proof.
  induction l as [|x l IH]; intros H HM.
  - simpl. lia.
  - assert (f x <= M) by (apply H; now left).
    assert (py_sum (map f l) <= Z.of_nat (List.length l) * M) by (apply IH; auto; intros; apply H; now right).
    change (py_sum (map f (x :: l))) with (f x + py_sum (map f l)).
    change (List.length (x :: l)) with (S (List.length l)). lia.
Qed.

Lemma length_arestas G : List.length (arestas G) = numero_de_arestas G.
Proof.
  unfold arestas, numero_de_arestas.
  induction (grafo G) as [|[u row] g IH]; simpl; auto.
  rewrite length_app, length_map, IH. reflexivity.
Qed.

Section Cotas.

Variable G : GrafoEnron.
Hypothesis Hbf : bem_formado G.

Lemma peso_positivo u v w : peso G u v = Some w -> 1 <= w.
Proof.
  intros H. apply (peso_aresta G u v w Hbf) in H. eapply bf_pesos; eauto.
Qed.

Lemma aresta_positiva e : In e (arestas G) -> 1 <= snd e.
Proof.
  destruct e as [[u v] w]. intros H. eapply bf_pesos; eauto.
Qed.

Lemma peso_total_nonneg : 0 <= peso_total G.
Proof.
  unfold peso_total. apply py_sum_nonneg. intros e He.
  apply aresta_positiva in He. lia.
Qed.

Lemma residuo_nonneg ds : 0 <= residuo G ds.
Proof.
  unfold residuo. apply py_sum_nonneg. intros e He. apply aresta_positiva in He.
  destruct (mem ds (snd (fst e))); lia.
Qed.

Lemma residuo_le_total ds : residuo G ds <= peso_total G.
Proof.
  unfold residuo, peso_total. apply py_sum_le. intros e He.
  apply aresta_positiva in He. destruct (mem ds (snd (fst e))); lia.
Qed.

(** Overwriting a key that is present changes no membership. *)
Lemma residuo_set_presente ds v x :
  mem ds v = true -> residuo G (set ds v x) = residuo G ds.
Proof.
  intros Hv. unfold residuo. f_equal. apply map_ext. intros e.
  unfold mem. rewrite get_set. destruct (String.eqb v (snd (fst e))) eqn:E; auto.
  apply String.eqb_eq in E. subst v. unfold mem in Hv.
  now destruct (get ds (snd (fst e))).
Qed.

(** Discovering [v] through an edge of weight [w] frees at least [w]. *)
Lemma residuo_set_ausente ds u v w x :
  mem ds v = false -> peso G u v = Some w ->
  residuo G (set ds v x) + w <= residuo G ds.
Proof.
  intros Hv Hw. apply (peso_aresta G u v w Hbf) in Hw. unfold residuo.
  apply py_sum_le_um with (x0 := (u, v, w)); auto.
  - intros e He. apply aresta_positiva in He. unfold mem. rewrite get_set.
    destruct (String.eqb v (snd (fst e))).
    + destruct (get ds (snd (fst e))); lia.
    + lia.
  - simpl. unfold mem in *. rewrite get_set_eq.
    destruct (get ds v); [discriminate | lia].
Qed.

Lemma residuo_set_le ds v x : residuo G (set ds v x) <= residuo G ds.
Proof.
  unfold residuo. apply py_sum_le. intros e He. apply aresta_positiva in He.
  unfold mem. rewrite get_set.
  destruct (String.eqb v (snd (fst e))); destruct (get ds (snd (fst e))); lia.
Qed.

Lemma potencial_nonneg ds :
  (forall v d, get ds v = Some d -> 0 <= d) -> 0 <= potencial G ds.
Proof.
  intros H. unfold potencial. apply py_sum_nonneg. intros e _.
  unfold pot. destruct (get ds (snd (fst e))) eqn:E; [eauto|].
  pose proof peso_total_nonneg. lia.
Qed.

(** Lowering the tentative distance of the target of an edge lowers the
    potential. *)
Lemma potencial_set ds u v w x :
  peso G u v = Some w -> x + 1 <= pot (peso_total G) ds v ->
  potencial G (set ds v x) + 1 <= potencial G ds.
Proof.
  intros Hw Hx. apply (peso_aresta G u v w Hbf) in Hw. unfold potencial.
  apply py_sum_le_um with (x0 := (u, v, w)); auto.
  - intros e _. unfold pot at 1. rewrite get_set.
    destruct (String.eqb v (snd (fst e))) eqn:E; [|unfold pot; lia].
    apply String.eqb_eq in E. subst v. lia.
  - simpl. unfold pot at 1. rewrite get_set_eq. exact Hx.
Qed.

Lemma potencial_inicial origem :
  potencial G [(origem, 0)] <= Z.of_nat (numero_de_arestas G) * (peso_total G + 1).
Proof.
  unfold potencial. rewrite <- length_arestas. pose proof peso_total_nonneg.
  apply py_sum_cota; [|lia]. intros e _. unfold pot. simpl.
  destruct (String.eqb (snd (fst e)) origem); lia.
Qed.

End Cotas.

(** ** One relaxation preserves the invariant *)

Section Relaxacao.

Variable G : GrafoEnron.
Variable origem : string.
Variable lim : option Z.
Hypothesis Hbf : bem_formado G.

Lemma melhora_spec ds v x :
  melhora ds v x = true <->
  get ds v = None \/ exists dv, get ds v = Some dv /\ x < dv.
Proof.
  unfold melhora. destruct (get ds v) as [dv|].
  - rewrite Z.ltb_lt. split.
    + intros H. right. eauto.
    + intros [H|(dv' & [= <-] & H)]; [discriminate | exact H].
  - split; auto.
Qed.

Lemma melhora_falso ds v x :
  melhora ds v x = false -> exists dv, get ds v = Some dv /\ dv <= x.
Proof.
  unfold melhora. destruct (get ds v) as [dv|]; [|discriminate].
  rewrite Z.ltb_ge. eauto.
Qed.

(** The popped entry [(dist, atual)] is kept at the head of the queue while
    the edges of [atual] are relaxed. *)
Lemma relaxar_inv dist atual v w ds f :
  dij_inv G origem lim ds ((dist, atual) :: f) ->
  peso G atual v = Some w ->
  let st' := relaxar lim dist (ds, f) (v, w) in
  dij_inv G origem lim (fst st') ((dist, atual) :: snd st') /\
  medida G (fst st') (snd st') <= medida G ds f /\
  (dentro lim (dist + w) -> exists dv, get (fst st') v = Some dv /\ dv <= dist + w) /\
  (forall x dx, get ds x = Some dx -> exists dx', get (fst st') x = Some dx' /\ dx' <= dx).
Proof.
  intros Hinv Hw. unfold relaxar. cbn [fst snd].
  destruct (dentrob lim (dist + w) && melhora ds v (dist + w)) eqn:Econd; cbn [fst snd].
  2:{ split; [exact Hinv|]. split; [lia|]. split; [|eauto with zarith].
      intros Hd. apply dentrob_spec in Hd. rewrite Hd in Econd. simpl in Econd.
      now apply melhora_falso. }
  apply andb_true_iff in Econd. destruct Econd as [Hd Hm].
  apply dentrob_spec in Hd. apply melhora_spec in Hm.
  destruct Hinv as [Hnd Ho Hreal Hlim Hfreal Hfila Hrelax Hcota Hfcota].
  set (nova := dist + w) in *.
  assert (Hw1 : 1 <= w) by (eapply peso_positivo; eauto).
  destruct (Hfcota dist atual (or_introl eq_refl)) as [Hdist0 HdistW].
  destruct (Hfreal dist atual (or_introl eq_refl)) as (ca & Hca).
  assert (Hvo : v <> origem).
  { intros ->. destruct Hm as [Hm|(dv & Hm & Hlt)]; rewrite Ho in Hm; [discriminate|].
    injection Hm as <-. lia. }
  assert (Hres : residuo G (set ds v nova) <= residuo G ds) by now apply residuo_set_le.
  assert (HnovaW : nova + residuo G (set ds v nova) <= peso_total G).
  { destruct Hm as [Hm|(dv & Hm & Hlt)].
    - pose proof (residuo_set_ausente G Hbf ds atual v w nova) as H.
      unfold mem in H. rewrite Hm in H. specialize (H eq_refl Hw). lia.
    - destruct (Hcota v dv Hm). lia. }
  assert (Hpot : nova + 1 <= pot (peso_total G) ds v).
  { unfold pot. destruct Hm as [Hm|(dv & Hm & Hlt)]; rewrite Hm; [|lia].
    pose proof (residuo_nonneg G Hbf (set ds v nova)). lia. }
  assert (Hmono : forall x dx, get ds x = Some dx ->
            exists dx', get (set ds v nova) x = Some dx' /\ dx' <= dx).
  { intros x dx Hx. rewrite get_set. destruct (String.eqb v x) eqn:E.
    - apply String.eqb_eq in E. subst x. exists nova. split; auto.
      destruct Hm as [Hm|(dv & Hm & Hlt)]; rewrite Hx in Hm; [discriminate|].
      injection Hm as <-. lia.
    - exists dx. split; auto. lia. }
  split; [|split; [|split]].
  - constructor.
    + now apply NoDup_keys_set.
    + rewrite get_set_neq; auto.
    + intros x d. rewrite get_set. destruct (String.eqb v x) eqn:E.
      * apply String.eqb_eq in E. subst x. intros [= <-].
        exists (ca ++ [v]). econstructor; eauto.
      * apply Hreal.
    + intros x d. rewrite get_set. destruct (String.eqb v x) eqn:E.
      * intros [= <-]. now right.
      * apply Hlim.
    + intros d u [H|H].
      * apply Hfreal. now left.
      * apply in_heappush in H. destruct H as [[= -> ->]|H].
        -- exists (ca ++ [v]). econstructor; eauto.
        -- apply Hfreal. now right.
    + intros d u Hin.
      assert (Hcases : (d, u) = (nova, v) \/ In (d, u) ((dist, atual) :: f)).
      { destruct Hin as [H|H]; [right; now left|].
        apply in_heappush in H. destruct H; [now left | right; now right]. }
      destruct Hcases as [[= -> ->]|H].
      * exists nova. rewrite get_set_eq. split; auto. lia.
      * destruct (Hfila d u H) as (du & Hdu & Hle).
        destruct (Hmono u du Hdu) as (du' & Hdu' & Hle'). exists du'. split; auto. lia.
    + intros u du. rewrite get_set. destruct (String.eqb v u) eqn:E.
      * apply String.eqb_eq in E. subst u. intros [= <-].
        left. right. apply in_heappush. now left.
      * intros Hu. destruct (Hrelax u du Hu) as [H|H].
        -- left. destruct H as [H|H]; [now left|]. right. apply in_heappush. now right.
        -- right. intros v' w' Hw' Hd'.
           destruct (H v' w' Hw' Hd') as (dv' & Hdv' & Hle).
           destruct (Hmono v' dv' Hdv') as (dx' & Hdx' & Hle'). exists dx'. split; auto. lia.
    + intros x d. rewrite get_set. destruct (String.eqb v x) eqn:E.
      * intros [= <-]. split; [lia | exact HnovaW].
      * intros Hx. destruct (Hcota x d Hx). split; lia.
    + intros d u Hin.
      assert (Hcases : (d, u) = (nova, v) \/ In (d, u) ((dist, atual) :: f)).
      { destruct Hin as [H|H]; [right; now left|].
        apply in_heappush in H. destruct H; [now left | right; now right]. }
      destruct Hcases as [[= -> ->]|H].
      * split; [lia | exact HnovaW].
      * destruct (Hfcota d u H). split; lia.
  - unfold medida. rewrite length_heappush.
    pose proof (potencial_set G Hbf ds atual v w nova Hw Hpot). lia.
  - intros _. exists nova. rewrite get_set_eq. split; auto. lia.
  - exact Hmono.
Qed.

(** Relaxing a whole row. *)
Lemma relaxar_linha_inv dist atual (row : list (string * Z)) :
  (forall v w, In (v, w) row -> peso G atual v = Some w) ->
  forall ds f,
    dij_inv G origem lim ds ((dist, atual) :: f) ->
    let st' := fold_left (relaxar lim dist) row (ds, f) in
    dij_inv G origem lim (fst st') ((dist, atual) :: snd st') /\
    medida G (fst st') (snd st') <= medida G ds f /\
    (forall v w, In (v, w) row -> dentro lim (dist + w) ->
                 exists dv, get (fst st') v = Some dv /\ dv <= dist + w) /\
    (forall x dx, get ds x = Some dx -> exists dx', get (fst st') x = Some dx' /\ dx' <= dx).
Proof.
  induction row as [|[v w] row IH]; intros Hrow ds f Hinv; simpl.
  - split; [exact Hinv|]. split; [lia|]. split; [intros ? ? []|].
    intros x dx Hx. exists dx. split; auto. lia.
  - assert (Hw : peso G atual v = Some w) by (apply Hrow; now left).
    destruct (relaxar_inv dist atual v w ds f Hinv Hw) as (H1 & H2 & H3 & H4).
    destruct (relaxar lim dist (ds, f) (v, w)) as [ds1 f1] eqn:E1. cbn [fst snd] in *.
    destruct (IH (fun v' w' H => Hrow v' w' (or_intror H)) ds1 f1 H1) as (K1 & K2 & K3 & K4).
    split; [exact K1|]. split; [eapply Z.le_trans; [exact K2 | exact H2]|]. split.
    + intros v' w' [[= -> ->]|Hin] Hd.
      * destruct (H3 Hd) as (dv & Hdv & Hle).
        destruct (K4 v' dv Hdv) as (dx' & Hdx' & Hle'). exists dx'. split; auto. lia.
      * now apply K3.
    + intros x dx Hx. destruct (H4 x dx Hx) as (d1 & Hd1 & Hle1).
      destruct (K4 x d1 Hd1) as (d2 & Hd2 & Hle2). exists d2. split; auto. lia.
Qed.

(** Once its row is relaxed, the popped entry can leave the queue. *)
Lemma dij_inv_retira dist atual ds f :
  dij_inv G origem lim ds ((dist, atual) :: f) ->
  (get ds atual = Some dist ->
   forall v w, peso G atual v = Some w -> dentro lim (dist + w) ->
               exists dv, get ds v = Some dv /\ dv <= dist + w) ->
  dij_inv G origem lim ds f.
Proof.
  intros [Hnd Ho Hreal Hlim Hfreal Hfila Hrelax Hcota Hfcota] Hpost.
  constructor.
  - exact Hnd.
  - exact Ho.
  - exact Hreal.
  - exact Hlim.
  - intros d u H. apply (Hfreal d u). now right.
  - intros d u H. apply (Hfila d u). now right.
  - intros u du Hu. destruct (Hrelax u du Hu) as [[[= -> ->]|H]|H]; auto.
  - exact Hcota.
  - intros d u H. apply (Hfcota d u). now right.
Qed.

Lemma medida_nonneg ds f : dij_inv G origem lim ds f -> 0 <= potencial G ds.
Proof.
  intros Hinv. apply potencial_nonneg; auto.
  intros v d Hv. now destruct (di_cota _ _ _ _ _ Hinv v d Hv).
Qed.

Lemma dij_inv_inicial : dij_inv G origem lim [(origem, 0)] [(0, origem)].
Proof.
  assert (Hget : forall v d, get [(origem, 0)] v = Some d -> v = origem /\ d = 0).
  { intros v d. simpl. destruct (String.eqb v origem) eqn:E; [|discriminate].
    apply String.eqb_eq in E. intros [= <-]. auto. }
  pose proof (residuo_le_total G Hbf [(origem, 0)]) as Hres.
  constructor.
  - repeat constructor. simpl. tauto.
  - simpl. now rewrite String.eqb_refl.
  - intros v d H. apply Hget in H. destruct H as [-> ->]. exists [origem]. constructor.
  - intros v d H. apply Hget in H. now left.
  - intros d u [[= <- <-]|[]]. exists [origem]. constructor.
  - intros d u [[= <- <-]|[]]. exists 0. simpl. rewrite String.eqb_refl. split; auto. lia.
  - intros u du H. apply Hget in H. destruct H as [-> ->]. left. now left.
  - intros v d H. apply Hget in H. destruct H as [-> ->]. split; lia.
  - intros d u [[= <- <-]|[]]. split; lia.
Qed.

(** When the queue is empty the recorded distances are below the weight of
    every path within the limit. *)
Lemma dij_inv_final ds :
  dij_inv G origem lim ds [] ->
  forall v c d, caminho G origem v c d -> dentro lim d ->
                exists dv, get ds v = Some dv /\ dv <= d.
Proof.
  intros Hinv v c d Hc. induction Hc as [|u v w c d Hc IH Hw]; intros Hd.
  - exists 0. split; [apply Hinv | lia].
  - assert (Hw1 : 1 <= w) by (eapply peso_positivo; eauto).
    destruct IH as (du & Hdu & Hle).
    { apply dentro_menor with (d + w); auto. lia. }
    destruct (di_relax _ _ _ _ _ Hinv u du Hdu) as [[]|H].
    destruct (H v w Hw) as (dv & Hdv & Hle').
    { apply dentro_menor with (d + w); auto. lia. }
    exists dv. split; auto. lia.
Qed.

End Relaxacao.

(** ** The two search loops *)

Lemma fold_left_ext {A B : Type} (f g : A -> B -> A) (l : list B) (a : A) :
  (forall x y, f x y = g x y) -> fold_left f l a = fold_left g l a.
Proof.
  intros H. revert a. induction l as [|y l IH]; intros a; simpl; auto.
  rewrite H. apply IH.
Qed.

Lemma linha_peso G atual v w :
  bem_formado G ->
  (In (v, w) (get_default (grafo G) atual []) <-> peso G atual v = Some w).
Proof.
  intros Hbf. unfold get_default, peso.
  destruct (get (grafo G) atual) as [row|] eqn:E.
  - split.
    + apply in_get. eapply bf_linhas; eauto. eapply get_some_in; eauto.
    + apply get_some_in.
  - simpl. split; [tauto | discriminate].
Qed.

Section Lacos.

Variable G : GrafoEnron.
Variable origem : string.
Hypothesis Hbf : bem_formado G.

Lemma ate_loop_correto (D : Z) (fuel : nat) :
  forall ds fila,
    dij_inv G origem (Some D) ds fila ->
    medida G ds fila <= Z.of_nat fuel ->
    exists r, ate_loop fuel G D ds fila = Done r /\ dij_inv G origem (Some D) r [].
Proof.
  induction fuel as [|fuel IH]; intros ds fila Hinv Hm.
  - destruct fila as [|[dist atual] fila'].
    + exists ds. split; [reflexivity | exact Hinv].
    + pose proof (medida_nonneg G origem (Some D) Hbf ds _ Hinv).
      unfold medida in Hm. simpl List.length in Hm. lia.
  - destruct fila as [|[dist atual] fila'].
    + exists ds. split; [reflexivity | exact Hinv].
    + simpl.
      destruct (di_fila _ _ _ _ _ Hinv dist atual (or_introl eq_refl)) as (da & Hda & Hle).
      rewrite Hda.
      assert (Hm' : medida G ds fila' <= Z.of_nat fuel).
      { unfold medida in *. simpl List.length in Hm. lia. }
      destruct (dist >? da) eqn:Egt.
      * apply IH; auto. apply dij_inv_retira with dist atual; auto.
        intros Hget. rewrite Hda in Hget. injection Hget as ->. lia.
      * rewrite (fold_left_ext _ (relaxar (Some D) dist)) by (intros; apply relaxar_ate_eq).
        pose proof (relaxar_linha_inv G origem (Some D) Hbf dist atual
                      (items (get_default (grafo G) atual []))) as Hrow.
        destruct (Hrow (fun v w H => proj1 (linha_peso G atual v w Hbf) H) ds fila' Hinv)
          as (K1 & K2 & K3 & _).
        destruct (fold_left (relaxar (Some D) dist) (items (get_default (grafo G) atual []))
                    (ds, fila')) as [ds' fila''].
        cbn [fst snd] in *. apply IH; [|lia].
        apply dij_inv_retira with dist atual; auto.
        intros _ v w Hw. apply K3. now apply linha_peso.
Qed.

Lemma relaxar_caminho_inv dist atual v w ds cs f :
  dij_inv G origem None ds ((dist, atual) :: f) ->
  cam_inv G origem ds cs ->
  peso G atual v = Some w ->
  exists cs',
    relaxar_caminho dist atual (ds, cs, f) (v, w) =
      Done (fst (relaxar None dist (ds, f) (v, w)), cs', snd (relaxar None dist (ds, f) (v, w))) /\
    cam_inv G origem (fst (relaxar None dist (ds, f) (v, w))) cs'.
Proof.
  intros Hinv [Hk Hp] Hw. unfold relaxar_caminho, relaxar. cbn [fst snd dentrob andb].
  destruct (melhora ds v (dist + w)) eqn:Em.
  2:{ exists cs. split; [reflexivity|]. split; assumption. }
  destruct (di_fila _ _ _ _ _ Hinv dist atual (or_introl eq_refl)) as (da & Hda & Hle).
  destruct (get cs atual) as [ca|] eqn:Eca.
  2:{ apply Hk in Eca. congruence. }
  exists (set cs v (ca ++ [v])). split; [reflexivity|]. cbn [fst snd].
  destruct (Hp atual ca Eca) as (d & dv & Hc & Hdv & Hd).
  assert (dv = da) by congruence. subst dv.
  split.
  - intros x. rewrite !get_set. destruct (String.eqb v x); [split; discriminate | apply Hk].
  - intros x c. rewrite !get_set. destruct (String.eqb v x) eqn:E.
    + apply String.eqb_eq in E. subst x. intros [= <-].
      exists (d + w), (dist + w). split; [econstructor; eauto|]. split; auto. lia.
    + intros Hx. destruct (Hp x c Hx) as (d' & dv' & H1 & H2 & H3).
      exists d', dv'. auto.
Qed.

Lemma relaxar_caminho_linha dist atual (row : list (string * Z)) :
  (forall v w, In (v, w) row -> peso G atual v = Some w) ->
  forall ds cs f,
    dij_inv G origem None ds ((dist, atual) :: f) ->
    cam_inv G origem ds cs ->
    exists cs',
      for_each (relaxar_caminho dist atual) row (ds, cs, f) =
        Done (fst (fold_left (relaxar None dist) row (ds, f)), cs',
              snd (fold_left (relaxar None dist) row (ds, f))) /\
      cam_inv G origem (fst (fold_left (relaxar None dist) row (ds, f))) cs'.
Proof.
  induction row as [|[v w] row IH]; intros Hrow ds cs f Hinv Hcam; cbn [for_each fold_left].
  - exists cs. split; [reflexivity | exact Hcam].
  - assert (Hw : peso G atual v = Some w) by (apply Hrow; now left).
    destruct (relaxar_caminho_inv dist atual v w ds cs f Hinv Hcam Hw) as (cs1 & E1 & Hcam1).
    rewrite E1. cbn [bind].
    destruct (relaxar_inv G origem None Hbf dist atual v w ds f Hinv Hw) as (H1 & _).
    destruct (relaxar None dist (ds, f) (v, w)) as [ds1 f1]. cbn [fst snd] in *.
    apply IH; auto. intros v' w' H. apply Hrow. now right.
Qed.

Lemma caminhos_loop_correto (fuel : nat) :
  forall ds cs fila,
    dij_inv G origem None ds fila ->
    cam_inv G origem ds cs ->
    medida G ds fila <= Z.of_nat fuel ->
    exists ds' cs', caminhos_loop fuel G ds cs fila = Done (ds', cs') /\
                    dij_inv G origem None ds' [] /\ cam_inv G origem ds' cs'.
Proof.
  induction fuel as [|fuel IH]; intros ds cs fila Hinv Hcam Hm.
  - destruct fila as [|[dist atual] fila'].
    + exists ds, cs. split; [reflexivity | split; assumption].
    + pose proof (medida_nonneg G origem None Hbf ds _ Hinv).
      unfold medida in Hm. simpl List.length in Hm. lia.
  - destruct fila as [|[dist atual] fila'].
    + exists ds, cs. split; [reflexivity | split; assumption].
    + cbn [caminhos_loop].
      assert (Hm' : medida G ds fila' <= Z.of_nat fuel).
      { unfold medida in *. simpl List.length in Hm. lia. }
      assert (Hrow : forall v w, In (v, w) (items (get_default (grafo G) atual [])) ->
                                 peso G atual v = Some w).
      { intros v w H. now apply linha_peso. }
      destruct (relaxar_caminho_linha dist atual _ Hrow ds cs fila' Hinv Hcam)
        as (cs' & E & Hcam').
      rewrite E. cbn [bind].
      destruct (relaxar_linha_inv G origem None Hbf dist atual _ Hrow ds fila' Hinv)
        as (K1 & K2 & K3 & _).
      destruct (fold_left (relaxar None dist) (items (get_default (grafo G) atual []))
                  (ds, fila')) as [ds' fila''].
      cbn [fst snd] in *. apply IH; auto; [|lia].
      apply dij_inv_retira with dist atual; auto.
      intros _ v w Hw. apply K3. now apply linha_peso.
Qed.

Lemma medida_inicial (fuel : nat) :
  (fuel_dijkstra G <= fuel)%nat ->
  medida G [(origem, 0)] [(0, origem)] <= Z.of_nat fuel.
Proof.
  unfold fuel_dijkstra, medida. intros H.
  pose proof (potencial_inicial G Hbf origem).
  pose proof (peso_total_nonneg G Hbf). simpl List.length.
  assert (0 <= Z.of_nat (numero_de_arestas G) * (peso_total G + 1)) by nia.
  lia.
Qed.

End Lacos.

(** ** Shape of a path *)

Lemma peso_caminho_snoc G o c d v w :
  c <> [] -> peso_caminho G c = Some d -> peso G (last c o) v = Some w ->
  peso_caminho G (c ++ [v]) = Some (d + w).
Proof.
  revert d. induction c as [|x c IH]; intros d Hne Hc Hw; [congruence|].
  destruct c as [|y c].
  - simpl in *. injection Hc as <-. rewrite Hw. f_equal. lia.
  - change (peso_caminho G ((x :: y :: c) ++ [v]))
      with (match peso G x y, peso_caminho G ((y :: c) ++ [v]) with
            | Some w0, Some d0 => Some (w0 + d0)
            | _, _ => None
            end).
    change (peso_caminho G (x :: y :: c))
      with (match peso G x y, peso_caminho G (y :: c) with
            | Some w0, Some d0 => Some (w0 + d0)
            | _, _ => None
            end) in Hc.
    destruct (peso G x y) as [w0|]; [|discriminate].
    destruct (peso_caminho G (y :: c)) as [d0|] eqn:E; [|discriminate].
    injection Hc as <-.
    rewrite (IH d0); [f_equal; lia | discriminate | reflexivity | exact Hw].
Qed.

Lemma caminho_forma G o v c d :
  caminho G o v c d ->
  hd_error c = Some o /\ last c o = v /\ peso_caminho G c = Some d.
Proof.
  intros H. induction H as [|u v w c d Hc (Hh & Hl & Hp) Hw].
  - repeat split.
  - assert (Hne : c <> []) by (intros ->; discriminate).
    split; [|split].
    + destruct c; [congruence | exact Hh].
    + apply last_last.
    + apply peso_caminho_snoc with o; auto. now rewrite Hl.
Qed.

Lemma caminho_sem_saida G o v c d :
  get (grafo G) o = None -> caminho G o v c d -> v = o /\ d = 0.
Proof.
  intros Ho H. induction H as [|u v w c d Hc [-> ->] Hw]; auto.
  unfold peso in Hw. rewrite Ho in Hw. discriminate.
Qed.

Lemma distancia_unica G o v d d' :
  distancia G o v d -> distancia G o v d' -> d = d'.
Proof.
  intros [(c & Hc) Hmin] [(c' & Hc') Hmin'].
  pose proof (Hmin _ _ Hc'). pose proof (Hmin' _ _ Hc). lia.
Qed.

(** ** Every weighted vertex sequence is a path *)

Lemma peso_caminho_snoc_inv G o c v d :
  c <> [] -> peso_caminho G (c ++ [v]) = Some d ->
  exists d' w, peso_caminho G c = Some d' /\ peso G (last c o) v = Some w /\ d = d' + w.
Proof.
  revert d. induction c as [|x c IH]; intros d Hne Hd; [congruence|].
  destruct c as [|y c].
  - simpl in Hd. destruct (peso G x v) as [w|] eqn:Ew; [|discriminate].
    injection Hd as <-. exists 0, w. simpl. repeat split; auto. lia.
  - change (peso_caminho G ((x :: y :: c) ++ [v]))
      with (match peso G x y, peso_caminho G ((y :: c) ++ [v]) with
            | Some w0, Some d0 => Some (w0 + d0)
            | _, _ => None
            end) in Hd.
    destruct (peso G x y) as [w0|] eqn:Exy; [|discriminate].
    destruct (peso_caminho G ((y :: c) ++ [v])) as [d0|] eqn:E; [|discriminate].
    injection Hd as <-.
    destruct (IH d0) as (d' & w & Hd' & Hw & ->); [discriminate | reflexivity |].
    exists (w0 + d'), w. split; [|split].
    + change (peso_caminho G (x :: y :: c))
        with (match peso G x y, peso_caminho G (y :: c) with
              | Some w1, Some d1 => Some (w1 + d1)
              | _, _ => None
              end).
      now rewrite Exy, Hd'.
    + exact Hw.
    + lia.
Qed.

Lemma forma_caminho G o c d :
  hd_error c = Some o -> peso_caminho G c = Some d -> caminho G o (last c o) c d.
Proof.
  revert d. induction c as [|v c IH] using rev_ind; intros d Hh Hp; [discriminate|].
  rewrite last_last. destruct c as [|x c].
  - simpl in *. injection Hh as ->. injection Hp as <-. constructor.
  - destruct (peso_caminho_snoc_inv G o (x :: c) v d) as (d' & w & Hd' & Hw & ->);
      [discriminate | exact Hp |].
    econstructor; [|exact Hw]. apply IH; auto.
Qed.

Lemma caminho_iff_forma G o v c d :
  caminho G o v c d <->
  hd_error c = Some o /\ last c o = v /\ peso_caminho G c = Some d.
Proof.
  split; [apply caminho_forma|].
  intros (Hh & <- & Hp). now apply forma_caminho.
Qed.

(** ** The searches are correct *)

Lemma chaves_filtradas {V : Type} (p : string * V -> bool) (d : dict V) :
  NoDup (keys d) -> NoDup (keys (filter p d)).
Proof.
  unfold keys. induction d as [|e d IH]; simpl; intros Hnd; [constructor|].
  inversion Hnd as [|? ? Hfora Hresto]; subst.
  destruct (p e); simpl; auto. constructor; auto.
  intros Hdentro. apply Hfora. apply in_map_iff in Hdentro.
  destruct Hdentro as (e' & He' & Hdentro).
  apply filter_In in Hdentro. apply in_map_iff. exists e'. tauto.
Qed.

(** What [_dijkstra_com_caminhos] returns: the keys of the two dictionaries
    are the vertices reachable from the origin, each with its shortest
    distance and a path of that weight. *)
Lemma dijkstra_com_caminhos_correto (G : GrafoEnron) (origem : string) (fuel : nat) :
  bem_formado G -> (fuel_dijkstra G <= fuel)%nat ->
  exists distancias caminhos,
    _dijkstra_com_caminhos fuel G origem = Done (distancias, caminhos) /\
    NoDup (keys distancias) /\
    (forall v, alcancavel G origem v -> exists d, get distancias v = Some d) /\
    (forall v d, get distancias v = Some d ->
                 distancia G origem v d /\
                 exists c, get caminhos v = Some c /\ caminho G origem v c d).
Proof.
  intros Hbf Hfuel. unfold _dijkstra_com_caminhos.
  destruct (caminhos_loop_correto G origem Hbf fuel [(origem, 0)] [(origem, [origem])]
              [(0, origem)]) as (ds & cs & E & Hinv & Hk & Hp).
  - now apply dij_inv_inicial.
  - split.
    + intros v. simpl. destruct (String.eqb v origem); split; congruence.
    + intros v c. simpl. destruct (String.eqb v origem) eqn:Ev; [|discriminate].
      apply String.eqb_eq in Ev. subst v. intros [= <-].
      exists 0, 0. split; [constructor|]. split; auto. lia.
  - now apply medida_inicial.
  - exists ds, cs. split; [exact E|]. split; [apply Hinv|].
    pose proof (dij_inv_final G origem None Hbf ds Hinv) as Hfinal.
    split.
    + intros v (c & d & Hc). destruct (Hfinal v c d Hc I) as (dv & Hdv & _). eauto.
    + intros v d Hd.
      destruct (get cs v) as [c|] eqn:Ec.
      2:{ apply Hk in Ec. congruence. }
      destruct (Hp v c Ec) as (dc & dv & Hc & Hdv & Hle).
      assert (dv = d) by congruence. subst dv.
      destruct (Hfinal v c dc Hc I) as (dv & Hdv' & Hle').
      assert (dv = d) by congruence. subst dv.
      assert (dc = d) by lia. subst dc.
      split.
      * split; [eauto|]. intros c' d' Hc'.
        destruct (Hfinal v c' d' Hc' I) as (dv & Hdv'' & Hle'').
        assert (dv = d) by congruence. lia.
      * eauto.
Qed.

(** C1: [vertices_ate_distancia(origem, distancia_max)] returns, without
    error, exactly the vertices other than the origin whose shortest
    weighted-path distance from the origin is at most the bound; every other
    vertex is absent from the result. *)
Theorem vertices_ate_distancia_correto (G : GrafoEnron) (origem : string)
  (distancia_max : Z) (fuel : nat) :
  bem_formado G -> (fuel_dijkstra G <= fuel)%nat ->
  exists r, vertices_ate_distancia fuel G origem distancia_max = Done r /\
            NoDup r /\
            forall v, In v r <->
                      v <> origem /\
                      exists d, distancia G origem v d /\ d <= distancia_max.
Proof.
  intros Hbf Hfuel. unfold vertices_ate_distancia.
  destruct (ate_loop_correto G origem Hbf distancia_max fuel [(origem, 0)] [(0, origem)])
    as (ds & E & Hinv).
  - now apply dij_inv_inicial.
  - now apply medida_inicial.
  - rewrite E. cbn [bind]. eexists. split; [reflexivity|].
    pose proof (dij_inv_final G origem (Some distancia_max) Hbf ds Hinv) as Hfinal.
    pose proof (di_nodup _ _ _ _ _ Hinv) as Hnd.
    split; [now apply chaves_filtradas|].
    intros v. rewrite in_map_iff. split.
    + intros ([v' d] & <- & Hin). apply filter_In in Hin. destruct Hin as [Hin Hf].
      simpl in *. apply andb_true_iff in Hf. destruct Hf as [Hne Hle].
      apply negb_true_iff, String.eqb_neq in Hne. apply Z.leb_le in Hle.
      split; [exact Hne|]. exists d. split; [|exact Hle].
      apply (in_get ds v' d Hnd) in Hin.
      destruct (di_real _ _ _ _ _ Hinv v' d Hin) as (c & Hc).
      split; [eauto|]. intros c' d' Hc'.
      destruct (Z_le_gt_dec d' distancia_max) as [Hd'|Hd']; [|lia].
      destruct (Hfinal v' c' d' Hc' Hd') as (dv & Hdv & Hle').
      assert (dv = d) by congruence. lia.
    + intros (Hne & d & [(c & Hc) Hmin] & Hle).
      destruct (Hfinal v c d Hc Hle) as (dv & Hdv & Hle').
      exists (v, dv). split; [reflexivity|]. apply filter_In. split.
      * now apply get_some_in.
      * simpl. apply andb_true_iff. split.
        -- apply negb_true_iff, String.eqb_neq. exact Hne.
        -- apply Z.leb_le. lia.
Qed.

(** C2: [_dijkstra_com_caminhos(origem)] returns, and for every vertex
    reachable from the origin it records the shortest weighted-path distance
    together with a vertex sequence that starts at the origin, ends at the
    vertex, follows edges of the graph, and weighs exactly that distance. *)
Theorem dijkstra_registra_caminhos_minimos (G : GrafoEnron) (origem : string)
  (fuel : nat) :
  bem_formado G -> (fuel_dijkstra G <= fuel)%nat ->
  exists distancias caminhos,
    _dijkstra_com_caminhos fuel G origem = Done (distancias, caminhos) /\
    forall v, alcancavel G origem v ->
      exists d c,
        get distancias v = Some d /\ get caminhos v = Some c /\
        distancia G origem v d /\
        hd_error c = Some origem /\ last c origem = v /\
        peso_caminho G c = Some d.
Proof.
  intros Hbf Hfuel.
  destruct (dijkstra_com_caminhos_correto G origem fuel Hbf Hfuel)
    as (ds & cs & E & _ & Hreach & Hrec).
  exists ds, cs. split; [exact E|]. intros v Hv.
  destruct (Hreach v Hv) as (d & Hd).
  destruct (Hrec v d Hd) as (Hdist & c & Hc & Hpath).
  exists d, c. apply caminho_forma in Hpath. tauto.
Qed.

Lemma bem_formado_caminho_abc : bem_formado caminho_abc.
Proof.
  apply bem_formado_inserir_todas, bem_formado_novo.
Qed.

Lemma vertices_ate_distancia_correto_witness :
  bem_formado caminho_abc /\ (fuel_dijkstra caminho_abc <= 34)%nat /\
  exists r, vertices_ate_distancia 34 caminho_abc "a" 6 = Done r /\
            NoDup r /\
            forall v, In v r <->
                      v <> "a" /\ exists d, distancia caminho_abc "a" v d /\ d <= 6.
Proof.
  split; [exact bem_formado_caminho_abc|]. split; [vm_compute; lia|].
  apply (vertices_ate_distancia_correto caminho_abc "a" 6 34 bem_formado_caminho_abc).
  vm_compute. lia.
Defined.

(** The bounded searches of the path graph a -> b (3) -> c (4). *)
Example vertices_ate_distancia_caminho_abc :
  vertices_ate_distancia 34 caminho_abc "a" 3 = Done ["b"] /\
  vertices_ate_distancia 34 caminho_abc "a" 7 = Done ["b"; "c"] /\
  vertices_ate_distancia 34 caminho_abc "a" 6 = Done ["b"].
Proof.
  repeat split; vm_compute; reflexivity.
Qed.

Lemma dijkstra_registra_caminhos_minimos_witness :
  bem_formado caminho_abc /\ (fuel_dijkstra caminho_abc <= 34)%nat /\
  exists distancias caminhos,
    _dijkstra_com_caminhos 34 caminho_abc "a" = Done (distancias, caminhos) /\
    forall v, alcancavel caminho_abc "a" v ->
      exists d c,
        get distancias v = Some d /\ get caminhos v = Some c /\
        distancia caminho_abc "a" v d /\
        hd_error c = Some "a" /\ last c "a" = v /\
        peso_caminho caminho_abc c = Some d.
Proof.
  split; [exact bem_formado_caminho_abc|]. split; [vm_compute; lia|].
  apply (dijkstra_registra_caminhos_minimos caminho_abc "a" 34 bem_formado_caminho_abc).
  vm_compute. lia.
Defined.

Example dijkstra_caminho_abc :
  _dijkstra_com_caminhos 34 caminho_abc "a" =
  Done ([("a", 0); ("b", 3); ("c", 7)],
        [("a", ["a"]); ("b", ["a"; "b"]); ("c", ["a"; "b"; "c"])]).
Proof.
  vm_compute. reflexivity.
Qed.

(** ** Diameter *)

Section Diametro.

Variable G : GrafoEnron.
Variable fuel : nat.
Hypothesis Hbf : bem_formado G.
Hypothesis Hfuel : (fuel_dijkstra G <= fuel)%nat.

Lemma atualizar_maior_linha (ds : dict Z) (cs : dict (list string)) (l : list string) :
  (forall k, In k l -> (exists d, get ds k = Some d) /\ (exists c, get cs k = Some c)) ->
  forall acc,
  exists acc', for_each (atualizar_maior ds cs) l acc = Done acc' /\
               fst acc <= fst acc' /\
               (forall k d, In k l -> get ds k = Some d -> d <= fst acc').
Proof.
  induction l as [|k l IH]; intros Hl acc; cbn [for_each].
  - exists acc. split; [reflexivity|]. split; [lia | intros ? ? []].
  - destruct (Hl k (or_introl eq_refl)) as [(d & Hd) (c & Hc)].
    unfold atualizar_maior at 1. rewrite Hd, Hc.
    destruct (IH (fun k' H => Hl k' (or_intror H)) (if d >? fst acc then (d, c) else acc))
      as (acc' & E & Hle & Hall).
    exists acc'. split.
    + destruct (d >? fst acc); exact E.
    + assert (Hd' : fst acc <= fst acc' /\ d <= fst acc').
      { destruct (d >? fst acc) eqn:Egt; simpl in Hle; lia. }
      split; [tauto|]. intros k' d' [<-|Hin] Hk'.
      * assert (d' = d) by congruence. lia.
      * eauto.
Qed.

Lemma diametro_geral (vs : list string) :
  forall acc,
  exists acc',
    for_each (fun acc origem =>
                r <- _dijkstra_com_caminhos fuel G origem ;;
                for_each (atualizar_maior (fst r) (snd r)) (keys (fst r)) acc) vs acc
    = Done acc' /\
    fst acc <= fst acc' /\
    (forall u v d, In u vs -> distancia G u v d -> d <= fst acc').
Proof.
  induction vs as [|o vs IH]; intros acc; cbn [for_each].
  - exists acc. split; [reflexivity|]. split; [lia | intros ? ? ? []].
  - destruct (dijkstra_com_caminhos_correto G o fuel Hbf Hfuel)
      as (ds & cs & E & Hnd & Hreach & Hrec).
    rewrite E. cbn [bind fst snd].
    destruct (atualizar_maior_linha ds cs (keys ds)) with (acc := acc)
      as (acc1 & E1 & Hle1 & Hall1).
    { intros k Hk. apply in_keys_get in Hk. destruct Hk as (d & Hd).
      split; [eauto|]. destruct (Hrec k d Hd) as (_ & c & Hc & _). eauto. }
    rewrite E1. cbn [bind].
    destruct (IH acc1) as (acc' & E' & Hle' & Hall').
    exists acc'. split; [exact E'|]. split; [lia|].
    intros u v d [<-|Hin] Hd; [|eauto].
    destruct (Hreach v) as (d' & Hd').
    { destruct Hd as [(c & Hc) _]. exists c, d. exact Hc. }
    destruct (Hrec v d' Hd') as (Hdist & _).
    assert (d = d') by (eapply distancia_unica; eauto). subst d'.
    assert (d <= fst acc1); [|lia].
    apply (Hall1 v d); auto. eapply get_some_key; eauto.
Qed.

End Diametro.

(** On [atalho] the diameter is 2 and the edge u -> v weighs 3. *)
Lemma diametro_menor_que_aresta : ~ diametro_cobre_arestas.
Proof.
  intros H.
  assert (Hbf : bem_formado atalho).
  { apply bem_formado_inserir_todas, bem_formado_novo. }
  assert (Hd : calcular_diametro 38 atalho = Done (2, ["u"; "x"; "v"])).
  { vm_compute. reflexivity. }
  assert (Hw : peso atalho "u" "v" = Some 3) by (vm_compute; reflexivity).
  assert (Hn : (1 <= numero_de_arestas atalho)%nat) by (vm_compute; lia).
  assert (Hf : (fuel_dijkstra atalho <= 38)%nat) by (vm_compute; lia).
  destruct (H atalho 38%nat 2 ["u"; "x"; "v"] Hbf Hn Hf Hd) as [Hedge _].
  pose proof (Hedge "u" "v" 3 Hw). lia.
Qed.

(** C5, amended: [calcular_diametro] returns a distance that is at least the
    shortest-path distance between every ordered pair of vertices joined by a
    path; hence it is at least the weight of every edge that is itself a
    shortest path between its endpoints, and at least 1 when there is an
    edge. *)
Theorem diametro_cobre_distancias (G : GrafoEnron) (fuel : nat) :
  bem_formado G -> (fuel_dijkstra G <= fuel)%nat ->
  exists d c,
    calcular_diametro fuel G = Done (d, c) /\
    (forall u v delta, distancia G u v delta -> delta <= d) /\
    (forall u v w, peso G u v = Some w -> distancia G u v w -> w <= d) /\
    ((1 <= numero_de_arestas G)%nat -> 1 <= d).
Proof.
  intros Hbf Hfuel. unfold calcular_diametro.
  destruct (diametro_geral G fuel Hbf Hfuel (vertices G) (0, [])) as ([d c] & E & Hle & Hall).
  simpl in Hle, Hall.
  assert (Hdist : forall u v delta, distancia G u v delta -> delta <= d).
  { intros u v delta Hd. destruct (in_dec string_dec u (vertices G)) as [Hu|Hu]; [eauto|].
    destruct Hd as [(p & Hp) _].
    apply caminho_sem_saida in Hp; [lia|]. now apply linha_de_ausente. }
  exists d, c. split; [exact E|]. split; [exact Hdist|]. split; [eauto|].
  intros Hn. rewrite <- length_arestas in Hn.
  destruct (arestas G) as [|[[u v] w] l] eqn:Ea; [simpl in Hn; lia|].
  assert (Hin : In (u, v, w) (arestas G)) by (rewrite Ea; now left).
  assert (Hw : peso G u v = Some w) by now apply peso_aresta.
  destruct (dijkstra_com_caminhos_correto G u fuel Hbf Hfuel)
    as (ds & cs & _ & _ & Hreach & Hrec).
  destruct (Hreach v) as (dv & Hdv).
  { exists ([u] ++ [v]), (0 + w). econstructor; [constructor | exact Hw]. }
  destruct (Hrec v dv Hdv) as (Hdv' & _).
  assert (dv <= d) by eauto.
  assert (1 <= dv); [|lia].
  destruct Hdv' as [(p & Hp) _].
  assert (Huv : u <> v) by (eapply bf_lacos; eauto).
  clear - Hp Huv Hbf. induction Hp as [|a b wab p dp Hp IH Hab]; [congruence|].
  assert (1 <= wab) by (eapply peso_positivo; eauto).
  assert (0 <= dp); [|lia].
  clear - Hp Hbf. induction Hp as [|a b wab p dp Hp IH Hab]; [lia|].
  assert (1 <= wab) by (eapply peso_positivo; eauto). lia.
Qed.

Lemma diametro_cobre_distancias_witness :
  bem_formado atalho /\ (fuel_dijkstra atalho <= 38)%nat /\
  exists d c,
    calcular_diametro 38 atalho = Done (d, c) /\
    (forall u v delta, distancia atalho u v delta -> delta <= d) /\
    (forall u v w, peso atalho u v = Some w -> distancia atalho u v w -> w <= d) /\
    ((1 <= numero_de_arestas atalho)%nat -> 1 <= d).
Proof.
  assert (Hbf : bem_formado atalho).
  { apply bem_formado_inserir_todas, bem_formado_novo. }
  split; [exact Hbf|]. split; [vm_compute; lia|].
  apply (diametro_cobre_distancias atalho 38 Hbf). vm_compute. lia.
Defined.

(** ** Vertices and rows of a built graph *)

Lemma set_add_chaves {V : Type} (d : dict V) (k : string) (v : V) :
  set_add (keys d) k = keys (if mem d k then d else set d k v).
Proof.
  unfold set_add. destruct (mem d k) eqn:E.
  - apply mem_true_iff in E. apply set_mem_iff in E. now rewrite E.
  - assert (Hk : ~ In k (keys d)).
    { intros H. apply mem_true_iff in H. congruence. }
    rewrite keys_set_absent by assumption.
    apply set_mem_false_iff in Hk. now rewrite Hk.
Qed.

Lemma vertices_chaves_adicionar G de para :
  vertices G = keys (grafo G) ->
  vertices (_adicionar_aresta G de para) = keys (grafo (_adicionar_aresta G de para)).
Proof.
  intros H. unfold _adicionar_aresta. destruct (String.eqb para de); [exact H|].
  cbn [vertices grafo]. unfold set_update. cbn [fold_left]. rewrite H.
  set (g1 := match get (grafo G) de with Some _ => grafo G | None => set (grafo G) de [] end).
  assert (H1 : set_add (keys (grafo G)) de = keys g1).
  { rewrite (set_add_chaves (grafo G) de []). unfold mem. subst g1.
    now destruct (get (grafo G) de). }
  rewrite H1. set (row' := match get (get_default g1 de []) para with
                           | Some w => set (get_default g1 de []) para (w + 1)
                           | None => set (get_default g1 de []) para 1
                           end).
  assert (H2 : keys (set g1 de row') = keys g1).
  { apply keys_set_present. rewrite <- H1. apply in_set_add. now left. }
  rewrite <- H2. apply set_add_chaves.
Qed.

(** In a built graph every vertex has a row, in the order of first
    appearance. *)
Lemma vertices_chaves_inserir_todas pares :
  vertices (inserir_todas novo pares) = keys (grafo (inserir_todas novo pares)).
Proof.
  assert (H : forall G, vertices G = keys (grafo G) ->
                        vertices (inserir_todas G pares) = keys (grafo (inserir_todas G pares))).
  { induction pares as [|p pares IH]; intros G HG; simpl; auto.
    apply IH. now apply vertices_chaves_adicionar. }
  apply H. reflexivity.
Qed.

(** ** Rankings *)

Lemma string_ltb_assimetrica (s t : string) :
  String.ltb s t = true -> String.ltb t s = false.
Proof.
  unfold String.ltb. rewrite (String.compare_antisym s t).
  destruct (String.compare t s); simpl; congruence.
Qed.

Lemma tuple_ltb_assimetrica (a b : Z * string) :
  tuple_ltb a b = true -> tuple_ltb b a = false.
Proof.
  unfold tuple_ltb. rewrite !orb_true_iff, !andb_true_iff, !orb_false_iff, !andb_false_iff.
  rewrite !Z.ltb_lt, !Z.eqb_eq, !Z.ltb_ge, !Z.eqb_neq.
  intros [H|[H1 H2]].
  - split; [lia | left; lia].
  - split; [lia|]. right. now apply string_ltb_assimetrica.
Qed.

Lemma insert_desc_hd (x a : Z * string) (l : list (Z * string)) :
  nao_menor a x -> HdRel nao_menor a l -> HdRel nao_menor a (insert_desc x l).
Proof.
  intros Hax Hl. destruct l as [|y l]; simpl.
  - now constructor.
  - destruct (tuple_ltb x y); constructor; auto. now inversion Hl.
Qed.

Lemma insert_desc_sorted (x : Z * string) (l : list (Z * string)) :
  Sorted nao_menor l -> Sorted nao_menor (insert_desc x l).
Proof.
  induction l as [|y l IH]; simpl; intros Hs.
  - repeat constructor.
  - inversion Hs as [|? ? Hs' Hhd]; subst.
    destruct (tuple_ltb x y) eqn:E.
    + constructor; auto. apply insert_desc_hd; auto.
      now apply tuple_ltb_assimetrica.
    + constructor; auto.
Qed.

Lemma sorted_reverse_sorted (l : list (Z * string)) :
  Sorted nao_menor (sorted_reverse l).
Proof.
  induction l as [|x l IH]; simpl; [constructor|].
  now apply insert_desc_sorted.
Qed.

Lemma insert_desc_perm (x : Z * string) (l : list (Z * string)) :
  Permutation (x :: l) (insert_desc x l).
Proof.
  induction l as [|y l IH]; simpl; auto.
  destruct (tuple_ltb x y); auto.
  rewrite perm_swap. now constructor.
Qed.

Lemma sorted_reverse_perm (l : list (Z * string)) :
  Permutation l (sorted_reverse l).
Proof.
  induction l as [|x l IH]; simpl; auto.
  rewrite <- insert_desc_perm. now constructor.
Qed.

Lemma firstn_sorted (n : nat) (l : list (Z * string)) :
  Sorted nao_menor l -> Sorted nao_menor (firstn n l).
Proof.
  revert l. induction n as [|n IH]; intros l Hs; simpl; [constructor|].
  destruct l as [|x l]; [constructor|].
  inversion Hs as [|? ? Hs' Hhd]; subst. constructor; auto.
  destruct l as [|y l]; destruct n; simpl; constructor. now inversion Hhd.
Qed.

Lemma string_ltb_trans (s t u : string) :
  String.ltb s t = true -> String.ltb t u = true -> String.ltb s u = true.
Proof.
  unfold String.ltb. intros Hst Htu.
  destruct (String.compare s t) eqn:Est; try discriminate.
  destruct (String.compare t u) eqn:Etu; try discriminate.
  apply String_as_OT.cmp_lt in Est, Etu.
  pose proof (String_as_OT.lt_trans _ _ _ Est Etu) as H.
  apply String_as_OT.cmp_lt in H. unfold String_as_OT.cmp in H. now rewrite H.
Qed.

Lemma string_ltb_tricotomia (s t : string) :
  String.ltb s t = false -> String.ltb t s = false -> s = t.
Proof.
  unfold String.ltb. rewrite (String.compare_antisym t s).
  destruct (String.compare s t) eqn:E; simpl; try discriminate.
  intros _ _. now apply String.compare_eq_iff.
Qed.

Lemma tuple_ltb_spec (a b : Z * string) :
  tuple_ltb a b = true <->
  fst a < fst b \/ (fst a = fst b /\ String.ltb (snd a) (snd b) = true).
Proof.
  unfold tuple_ltb. now rewrite orb_true_iff, andb_true_iff, Z.ltb_lt, Z.eqb_eq.
Qed.

Lemma tuple_ltb_trans (a b c : Z * string) :
  tuple_ltb a b = true -> tuple_ltb b c = true -> tuple_ltb a c = true.
Proof.
  rewrite !tuple_ltb_spec. intros [H1|[H1 H2]] [H3|[H3 H4]]; try (left; lia).
  right. split; [lia|]. eapply string_ltb_trans; eauto.
Qed.

Lemma tuple_ltb_tricotomia (a b : Z * string) :
  tuple_ltb a b = false -> tuple_ltb b a = false -> a = b.
Proof.
  destruct a as [x s], b as [y t]. unfold tuple_ltb. simpl.
  rewrite !orb_false_iff, !andb_false_iff, !Z.ltb_ge, !Z.eqb_neq.
  intros [H1 H2] [H3 H4]. assert (x = y) by lia. subst y.
  f_equal. apply string_ltb_tricotomia.
  - destruct H2; [lia | assumption].
  - destruct H4; [lia | assumption].
Qed.

Lemma nao_menor_trans (a b c : Z * string) :
  nao_menor a b -> nao_menor b c -> nao_menor a c.
Proof.
  unfold nao_menor. intros Hab Hbc.
  destruct (tuple_ltb a c) eqn:Eac; [|reflexivity].
  destruct (tuple_ltb b a) eqn:Eba.
  - rewrite (tuple_ltb_trans b a c Eba Eac) in Hbc. discriminate.
  - assert (a = b) by now apply tuple_ltb_tricotomia.
    subst b. congruence.
Qed.

Lemma ranking_decrescente (n : nat) (l : list (Z * string)) :
  StronglySorted nao_menor (firstn n (sorted_reverse l)).
Proof.
  apply Sorted_StronglySorted.
  - intros a b c. apply nao_menor_trans.
  - apply firstn_sorted, sorted_reverse_sorted.
Qed.

(** C6: what holds of the two rankings on every graph: each is in descending
    order of the tuples (degree, vertex) and has at most 20 entries, and the
    out-degree ranking has an entry for each key of [grafo] up to 20, which
    in a built graph is an entry for each vertex up to 20.  On
    [estrela], [top_20_grau_entrada] lists one of the twenty vertices,
    because a vertex without incoming edges never enters [graus], whereas
    [top_20_grau_saida] lists the vertices without outgoing edges with
    degree 0. *)
Theorem top_20_propriedades :
  (forall G,
      StronglySorted nao_menor (top_20_grau_saida G) /\
      StronglySorted nao_menor (top_20_grau_entrada G) /\
      List.length (top_20_grau_saida G) = Nat.min 20 (List.length (grafo G)) /\
      (List.length (top_20_grau_entrada G) <= 20)%nat) /\
  (forall pares,
      let G := inserir_todas novo pares in
      List.length (top_20_grau_saida G) = Nat.min 20 (numero_de_vertices G)) /\
  numero_de_vertices estrela = 20%nat /\
  top_20_grau_entrada estrela = [(19, "hub")] /\
  List.length (top_20_grau_saida estrela) = 20%nat.
Proof.
  split.
  - intros G. unfold top_20_grau_saida, top_20_grau_entrada.
    split; [apply ranking_decrescente|].
    split; [apply ranking_decrescente|].
    split.
    + rewrite length_firstn.
      rewrite <- (Permutation_length (sorted_reverse_perm _)), length_map. reflexivity.
    + rewrite length_firstn. apply Nat.le_min_l.
  - split.
    + intros pares G. unfold top_20_grau_saida, numero_de_vertices.
      rewrite length_firstn.
      rewrite <- (Permutation_length (sorted_reverse_perm _)), length_map.
      subst G. rewrite vertices_chaves_inserir_todas. unfold keys.
      now rewrite length_map.
    + repeat split; vm_compute; reflexivity.
Qed.

(** ** Lookup after insertion *)

Lemma peso_adicionar_geral (G : GrafoEnron) (de para u v : string) :
  de <> para ->
  peso (_adicionar_aresta G de para) u v =
  if String.eqb u de && String.eqb v para
  then Some (mais_um (peso G de para))
  else peso G u v.
Proof.
  intros Hne. unfold _adicionar_aresta.
  assert (E : String.eqb para de = false) by (apply String.eqb_neq; congruence).
  rewrite E. unfold peso at 1. cbn [grafo].
  set (g1 := match get (grafo G) de with Some _ => grafo G | None => set (grafo G) de [] end).
  set (row := get_default g1 de []).
  set (row' := match get row para with Some w => set row para (w + 1) | None => set row para 1 end).
  set (g2 := set g1 de row').
  assert (Hrow : forall x, get row x = peso G de x).
  { intros x. subst row g1. unfold get_default, peso.
    destruct (get (grafo G) de) as [r|] eqn:Er.
    - now rewrite Er.
    - now rewrite get_set_eq. }
  assert (Hrow' : forall x, get row' x =
             if String.eqb para x then Some (mais_um (peso G de para)) else peso G de x).
  { intros x. subst row'. rewrite <- !Hrow. unfold mais_um.
    destruct (get row para); now rewrite get_set. }
  assert (Hg1 : forall x, x <> de -> get g1 x = get (grafo G) x).
  { intros x Hx. subst g1. destruct (get (grafo G) de); auto.
    apply get_set_neq. congruence. }
  assert (Hg2 : forall x, get g2 x = if String.eqb de x then Some row' else get g1 x).
  { intros x. subst g2. apply get_set. }
  assert (Hg3 : forall x, get (if mem g2 para then g2 else set g2 para []) x =
                          if String.eqb de x then Some row'
                          else match get (grafo G) x with
                               | Some r => Some r
                               | None => if String.eqb para x && negb (mem g2 para)
                                         then Some [] else None
                               end).
  { intros x. destruct (mem g2 para) eqn:Em.
    - rewrite Hg2, andb_false_r. destruct (String.eqb de x) eqn:Ex; auto.
      apply String.eqb_neq in Ex. rewrite Hg1 by congruence.
      now destruct (get (grafo G) x).
    - rewrite get_set, andb_true_r. destruct (String.eqb para x) eqn:Ep.
      + apply String.eqb_eq in Ep. subst x.
        assert (Ed : String.eqb de para = false) by now apply String.eqb_neq.
        rewrite Ed. unfold mem in Em. rewrite Hg2, Ed, Hg1 in Em by congruence.
        now destruct (get (grafo G) para).
      + rewrite Hg2. destruct (String.eqb de x) eqn:Ex; auto.
        apply String.eqb_neq in Ex. rewrite Hg1 by congruence.
        now destruct (get (grafo G) x). }
  rewrite Hg3. rewrite (String.eqb_sym u de).
  destruct (String.eqb de u) eqn:Eu.
  - apply String.eqb_eq in Eu. subst u. rewrite Hrow'. simpl.
    rewrite (String.eqb_sym v para). reflexivity.
  - simpl. unfold peso. destruct (get (grafo G) u); auto.
    destruct (String.eqb para u && negb (mem g2 para)); reflexivity.
Qed.

(** X1: looking an edge up after [_adicionar_aresta(de, para)]: the edge
    [de -> para] weighs one more than before, or 1 when it is new; every
    other pair keeps what it had; and a call with [de = para] changes
    nothing at all. *)
Theorem peso_apos_adicionar (G : GrafoEnron) (de para u v : string) :
  (de = para -> _adicionar_aresta G de para = G) /\
  (de <> para ->
   peso (_adicionar_aresta G de para) de para = Some (mais_um (peso G de para)) /\
   ((u, v) <> (de, para) -> peso (_adicionar_aresta G de para) u v = peso G u v)).
Proof.
  split.
  - intros ->. unfold _adicionar_aresta. now rewrite String.eqb_refl.
  - intros Hne. split.
    + rewrite peso_adicionar_geral by assumption. now rewrite !String.eqb_refl.
    + intros Huv. rewrite peso_adicionar_geral by assumption.
      destruct (String.eqb u de) eqn:Eu; destruct (String.eqb v para) eqn:Ev; auto.
      apply String.eqb_eq in Eu, Ev. congruence.
Qed.

Lemma peso_apos_adicionar_witness :
  "a" <> "b" /\
  peso (_adicionar_aresta ciclo_abc "a" "b") "a" "b" = Some (mais_um (peso ciclo_abc "a" "b")) /\
  (("b", "c") <> ("a", "b") ->
   peso (_adicionar_aresta ciclo_abc "a" "b") "b" "c" = peso ciclo_abc "b" "c").
Proof.
  split; [discriminate|].
  apply (proj2 (peso_apos_adicionar ciclo_abc "a" "b" "b" "c")). discriminate.
Defined.

(** ** The weight of an edge is the number of messages *)

Lemma ocorrencias_cons (a b de para : string) (pares : list (string * string)) :
  ocorrencias a b ((de, para) :: pares) =
  if String.eqb de a && String.eqb para b
  then S (ocorrencias a b pares) else ocorrencias a b pares.
Proof.
  unfold ocorrencias. cbn [filter fst snd].
  now destruct (String.eqb de a && String.eqb para b).
Qed.

Lemma peso_inserir_todas_geral (pares : list (string * string)) :
  forall (G : GrafoEnron) (a b : string),
    a <> b ->
    peso (inserir_todas G pares) a b =
    match ocorrencias a b pares with
    | O => peso G a b
    | S n => Some (match peso G a b with Some w => w | None => 0 end + Z.of_nat (S n))
    end.
Proof.
  induction pares as [|[de para] pares IH]; intros G a b Hab; [reflexivity|].
  cbn [inserir_todas fold_left fst snd].
  fold (inserir_todas (_adicionar_aresta G de para) pares).
  rewrite IH by assumption. rewrite ocorrencias_cons.
  destruct (String.eqb de a && String.eqb para b) eqn:E.
  - apply andb_true_iff in E. destruct E as [E1 E2].
    apply String.eqb_eq in E1, E2. subst de para.
    rewrite peso_adicionar_geral, !String.eqb_refl by assumption. cbn [andb].
    unfold mais_um. destruct (ocorrencias a b pares); destruct (peso G a b); f_equal; lia.
  - assert (Hp : peso (_adicionar_aresta G de para) a b = peso G a b).
    { destruct (string_dec de para) as [->|Hne].
      - unfold _adicionar_aresta. now rewrite String.eqb_refl.
      - rewrite peso_adicionar_geral by assumption.
        rewrite (String.eqb_sym a de), (String.eqb_sym b para), E. reflexivity. }
    rewrite Hp. reflexivity.
Qed.

Lemma peso_laco_inserir_todas (pares : list (string * string)) :
  forall (G : GrafoEnron) (a : string),
    peso G a a = None -> peso (inserir_todas G pares) a a = None.
Proof.
  induction pares as [|[de para] pares IH]; intros G a H; [exact H|].
  cbn [inserir_todas fold_left fst snd].
  fold (inserir_todas (_adicionar_aresta G de para) pares). apply IH.
  destruct (string_dec de para) as [->|Hne].
  - unfold _adicionar_aresta. now rewrite String.eqb_refl.
  - rewrite peso_adicionar_geral by assumption.
    destruct (String.eqb a de) eqn:E1; destruct (String.eqb a para) eqn:E2; auto.
    apply String.eqb_eq in E1, E2. congruence.
Qed.

(** X2: in the graph built from a stream of pairs, the edge [a -> b],
    [a <> b], exists exactly when the pair occurs in the stream, its weight
    is the number of occurrences, and no vertex has an edge to itself. *)
Theorem peso_conta_mensagens (pares : list (string * string)) (a b : string) :
  let G := inserir_todas novo pares in
  (a <> b ->
   peso G a b = match ocorrencias a b pares with
                | O => None
                | S n => Some (Z.of_nat (S n))
                end) /\
  peso G a a = None.
Proof.
  intros G. split.
  - intros Hab. subst G. rewrite peso_inserir_todas_geral by assumption.
    destruct (ocorrencias a b pares); reflexivity.
  - apply peso_laco_inserir_todas. reflexivity.
Qed.

Lemma ocorrencias_perm (a b : string) (l l' : list (string * string)) :
  Permutation l l' -> ocorrencias a b l = ocorrencias a b l'.
Proof.
  intros H. unfold ocorrencias. induction H; simpl; auto.
  - destruct (String.eqb (fst x) a && String.eqb (snd x) b); simpl; auto.
  - destruct (String.eqb (fst x) a && String.eqb (snd x) b);
      destruct (String.eqb (fst y) a && String.eqb (snd y) b); reflexivity.
  - congruence.
Qed.

(** X3: the weights do not depend on the order in which the pairs arrive:
    two streams that are permutations of each other build graphs with the
    same weight on every pair of vertices. *)
Theorem pesos_independem_da_ordem (pares pares' : list (string * string)) (a b : string) :
  Permutation pares pares' ->
  peso (inserir_todas novo pares) a b = peso (inserir_todas novo pares') a b.
Proof.
  intros Hperm. destruct (string_dec a b) as [->|Hab].
  - rewrite !peso_laco_inserir_todas; reflexivity.
  - rewrite !peso_inserir_todas_geral by assumption.
    now rewrite (ocorrencias_perm a b pares pares' Hperm).
Qed.

Lemma pesos_independem_da_ordem_witness :
  Permutation [("a", "b"); ("b", "c")] [("b", "c"); ("a", "b")] /\
  peso (inserir_todas novo [("a", "b"); ("b", "c")]) "a" "b" =
  peso (inserir_todas novo [("b", "c"); ("a", "b")]) "a" "b".
Proof.
  assert (H : Permutation [("a", "b"); ("b", "c")] [("b", "c"); ("a", "b")])
    by apply perm_swap.
  split; [exact H|].
  apply (pesos_independem_da_ordem _ _ "a" "b" H).
Defined.

(** ** What a built graph contains *)

(** X4: what every graph built by insertions keeps: each vertex has a row
    and each row belongs to a vertex, in the same order; no vertex or row key
    is repeated; and every edge has a weight of at least 1, joins two
    different vertices and ends in the vertex set. *)
Theorem invariantes_do_grafo_construido (pares : list (string * string)) :
  let G := inserir_todas novo pares in
  vertices G = keys (grafo G) /\
  NoDup (vertices G) /\
  (forall u row, In (u, row) (grafo G) -> NoDup (keys row)) /\
  (forall u v w, peso G u v = Some w ->
                 1 <= w /\ u <> v /\ In u (vertices G) /\ In v (vertices G)).
Proof.
  intros G.
  assert (Hbf : bem_formado G) by apply bem_formado_inserir_todas, bem_formado_novo.
  split; [apply vertices_chaves_inserir_todas|].
  split; [apply Hbf|]. split; [apply Hbf|].
  intros u v w Hw. pose proof Hw as Hin. apply (peso_aresta G u v w Hbf) in Hin.
  split; [eapply bf_pesos; eauto|]. split; [eapply bf_lacos; eauto|]. split.
  - apply (bf_origens G Hbf). unfold peso in Hw.
    destruct (get (grafo G) u) eqn:E; [|discriminate]. eapply get_some_key; eauto.
  - apply (bf_origens G Hbf). eapply bf_destinos; eauto.
Qed.

Lemma vertices_adicionar (G : GrafoEnron) (de para v : string) :
  In v (vertices (_adicionar_aresta G de para)) <->
  In v (vertices G) \/ (de <> para /\ (v = de \/ v = para)).
Proof.
  unfold _adicionar_aresta. destruct (String.eqb para de) eqn:E.
  - apply String.eqb_eq in E. subst. tauto.
  - apply String.eqb_neq in E. cbn [vertices]. unfold set_update. cbn [fold_left].
    rewrite !in_set_add. intuition congruence.
Qed.

Lemma vertices_inserir_todas_geral (pares : list (string * string)) :
  forall (G : GrafoEnron) (v : string),
    In v (vertices (inserir_todas G pares)) <->
    In v (vertices G) \/
    exists p, In p pares /\ fst p <> snd p /\ (v = fst p \/ v = snd p).
Proof.
  induction pares as [|[de para] pares IH]; intros G v.
  - simpl. split; auto. intros [H|(p & [] & _)]. exact H.
  - cbn [inserir_todas fold_left fst snd].
    fold (inserir_todas (_adicionar_aresta G de para) pares).
    rewrite IH, vertices_adicionar. split.
    + intros [[H|(Hne & H)]|(p & Hp & H)]; auto.
      * right. exists (de, para). simpl. auto.
      * right. exists p. simpl. auto.
    + intros [H|(p & [<-|Hp] & Hne & H)]; auto.
      right. eauto.
Qed.

(** X5: the vertices of a built graph are exactly the addresses that occur,
    as sender or as recipient, in a pair of the stream whose two addresses
    differ; an address seen only in messages to itself is not a vertex; and
    [numero_de_vertices()] is the number of distinct such addresses. *)
Theorem vertices_do_grafo_construido (pares : list (string * string)) :
  (forall v, In v (vertices (inserir_todas novo pares)) <->
             exists p, In p pares /\ fst p <> snd p /\ (v = fst p \/ v = snd p)) /\
  numero_de_vertices (inserir_todas novo pares) =
    List.length (nodup string_dec
                   (flat_map (fun p => [fst p; snd p]) (filter nao_laco pares))).
Proof.
  assert (Hv : forall v, In v (vertices (inserir_todas novo pares)) <->
             exists p, In p pares /\ fst p <> snd p /\ (v = fst p \/ v = snd p)).
  { intros v. rewrite vertices_inserir_todas_geral. simpl. tauto. }
  split; [exact Hv|].
  unfold numero_de_vertices. apply Permutation_length, NoDup_Permutation.
  - apply (bf_vertices _ (bem_formado_inserir_todas novo pares bem_formado_novo)).
  - apply NoDup_nodup.
  - intros v. rewrite Hv, nodup_In, in_flat_map. split.
    + intros (q & Hq & Hne & Hor). exists q. split.
      * apply filter_In. split; auto. unfold nao_laco.
        apply negb_true_iff, String.eqb_neq. congruence.
      * simpl. intuition.
    + intros (q & Hq & Hor). apply filter_In in Hq. destruct Hq as [Hq Hne].
      unfold nao_laco in Hne. apply negb_true_iff, String.eqb_neq in Hne.
      exists q. split; auto. split; [congruence|]. simpl in Hor. intuition.
Qed.

Lemma ocorrencias_pos (a b : string) (pares : list (string * string)) :
  (0 < ocorrencias a b pares)%nat <-> In (a, b) pares.
Proof.
  induction pares as [|[de para] pares IH].
  - simpl. split; [unfold ocorrencias; simpl; lia | tauto].
  - rewrite ocorrencias_cons. simpl.
    destruct (String.eqb de a && String.eqb para b) eqn:E.
    + apply andb_true_iff in E. destruct E as [E1 E2].
      apply String.eqb_eq in E1, E2. subst. split; [auto | lia].
    + rewrite IH. split; auto. intros [[= -> ->]|H]; auto.
      rewrite !String.eqb_refl in E. discriminate.
Qed.

Lemma aresta_do_grafo_construido (pares : list (string * string)) (a b : string) :
  (exists w, peso (inserir_todas novo pares) a b = Some w) <->
  a <> b /\ In (a, b) pares.
Proof.
  destruct (string_dec a b) as [->|Hab].
  - rewrite peso_laco_inserir_todas by reflexivity.
    split; [intros (w & H); discriminate | tauto].
  - rewrite peso_inserir_todas_geral by assumption.
    rewrite <- ocorrencias_pos. simpl.
    destruct (ocorrencias a b pares).
    + split; [intros (w & H); discriminate | lia].
    + split; eauto. intros _. split; [assumption | lia].
Qed.

Lemma NoDup_pares_arestas (G : GrafoEnron) :
  bem_formado G -> NoDup (map fst (arestas G)).
Proof.
  intros Hbf. pose proof (bf_chaves G Hbf) as Hk. pose proof (bf_linhas G Hbf) as Hl.
  unfold arestas. induction (grafo G) as [|[u row] g IH]; simpl; [constructor|].
  inversion Hk as [|? ? Hni Hk']; subst.
  rewrite map_app. apply NoDup_app.
  - assert (Hrow : NoDup (keys row)) by (apply (Hl u); now left).
    rewrite map_map. simpl. clear - Hrow. unfold keys in Hrow.
    induction row as [|[v w] row IHr]; simpl; [constructor|].
    inversion Hrow as [|? ? Hv Hrow']; subst. constructor; auto.
    intros H. apply Hv. apply in_map_iff in H. destruct H as ([v' w'] & [= ->] & H).
    apply in_map_iff. exists (v, w'). auto.
  - apply IH; auto. intros u' r H. apply (Hl u'). now right.
  - intros [a b] H1 H2. apply Hni.
    rewrite map_map in H1. apply in_map_iff in H1. destruct H1 as (e1 & E1 & _).
    simpl in E1. injection E1 as <- _.
    apply in_map_iff in H2. destruct H2 as ([[a2 b2] w2] & E2 & H2).
    simpl in E2. injection E2 as -> ->.
    apply in_flat_map in H2. destruct H2 as ([u2 r2] & Hin & H2).
    apply in_map_iff in H2. destruct H2 as (e & E & _).
    simpl in E. injection E as <- _ _.
    apply (in_map fst) in Hin. exact Hin.
Qed.

(** X6: [numero_de_arestas()] of a built graph is the number of distinct
    pairs of the stream whose two addresses differ, however often each pair
    is repeated; it never exceeds the number of such pairs counted with
    repetition. *)
Theorem numero_de_arestas_do_grafo_construido (pares : list (string * string)) :
  let G := inserir_todas novo pares in
  numero_de_arestas G = List.length (nodup par_eq_dec (filter nao_laco pares)) /\
  (numero_de_arestas G <= List.length (filter nao_laco pares))%nat.
Proof.
  intros G.
  assert (Hbf : bem_formado G) by apply bem_formado_inserir_todas, bem_formado_novo.
  assert (E : numero_de_arestas G = List.length (nodup par_eq_dec (filter nao_laco pares))).
  { rewrite <- length_arestas, <- (length_map fst).
    apply Permutation_length, NoDup_Permutation.
    - now apply NoDup_pares_arestas.
    - apply NoDup_nodup.
    - intros [a b]. rewrite nodup_In, filter_In. unfold nao_laco. simpl.
      rewrite negb_true_iff, String.eqb_neq.
      pose proof (aresta_do_grafo_construido pares a b) as Ha. fold G in Ha.
      split.
      + intros H. apply in_map_iff in H. destruct H as ([[a' b'] w] & [= -> ->] & H).
        destruct (proj1 Ha) as [Hne Hin]; [|split; [assumption | congruence]].
        exists w. now apply peso_aresta.
      + intros [Hin Hne]. destruct (proj2 Ha) as (w & Hw); [split; [congruence | assumption]|].
        apply in_map_iff. exists (a, b, w). split; auto. now apply peso_aresta. }
  split; [exact E|]. rewrite E. apply NoDup_incl_length.
  - apply NoDup_nodup.
  - intros p. now rewrite nodup_In.
Qed.

(** *** Isolated vertices *)

Lemma get_contar_entrada (row graus : dict Z) (v : string) :
  get_default (fold_left contar_entrada row graus) v 0 =
  get_default graus v 0 +
  Z.of_nat (List.length (filter (fun e : string * Z => String.eqb (fst e) v) row)).
Proof.
  revert graus. induction row as [|[x w] row IH]; intros graus; cbn [fold_left filter fst].
  - simpl. lia.
  - rewrite IH. unfold contar_entrada. cbn [fst]. rewrite get_default_set.
    destruct (String.eqb x v) eqn:E; cbn [List.length]; [|lia].
    apply String.eqb_eq in E. subst x. lia.
Qed.

Lemma get_contagem_entrada (G : GrafoEnron) (v : string) :
  get_default (contagem_entrada G) v 0 =
  Z.of_nat (List.length (filter (fun e : string * string * Z => String.eqb (snd (fst e)) v)
                           (arestas G))).
Proof.
  unfold contagem_entrada, arestas.
  assert (H : forall graus,
    get_default (fold_left (fun graus r => fold_left contar_entrada (snd r) graus) (grafo G) graus) v 0 =
    get_default graus v 0 +
    Z.of_nat (List.length (filter (fun e : string * string * Z => String.eqb (snd (fst e)) v)
                (flat_map (fun r => map (fun e : string * Z => (fst r, fst e, snd e)) (snd r))
                   (grafo G))))).
  { induction (grafo G) as [|[u row] g IH]; intros graus; cbn [fold_left flat_map fst snd].
    - simpl. lia.
    - rewrite IH, get_contar_entrada, filter_app, length_app.
      assert (E : List.length (filter (fun e : string * string * Z => String.eqb (snd (fst e)) v)
                                 (map (fun e : string * Z => (u, fst e, snd e)) row)) =
                  List.length (filter (fun e : string * Z => String.eqb (fst e) v) row)).
      { clear. induction row as [|[x w] row IHr]; simpl; auto.
        destruct (String.eqb x v); simpl; auto. }
      rewrite E. lia. }
  rewrite H. reflexivity.
Qed.

Lemma isolado_spec (G : GrafoEnron) (v : string) :
  bem_formado G ->
  Nat.eqb (List.length (get_default (grafo G) v [])) 0
  && (get_default (contagem_entrada G) v 0 =? 0) =
  negb (existsb (toca v) (arestas G)).
Proof.
  intros Hbf. rewrite get_contagem_entrada.
  apply eq_true_iff_eq. rewrite andb_true_iff, Nat.eqb_eq, Z.eqb_eq, negb_true_iff.
  rewrite <- not_true_iff_false, existsb_exists. split.
  - intros [Hout Hin] ([[a b] w] & He & Ht). unfold toca in Ht. simpl in Ht.
    apply orb_true_iff in Ht. destruct Ht as [Ht|Ht]; apply String.eqb_eq in Ht; subst.
    + apply (peso_aresta G v b w Hbf), (linha_peso G v b w Hbf) in He.
      destruct (get_default (grafo G) v []); [destruct He | discriminate].
    + assert (Hf : In (a, v, w) (filter (fun e : string * string * Z =>
                                            String.eqb (snd (fst e)) v) (arestas G))).
      { apply filter_In. split; auto. apply String.eqb_refl. }
      destruct (filter _ (arestas G)); [destruct Hf | simpl in Hin; lia].
  - intros Hno. split.
    + destruct (get_default (grafo G) v []) as [|[b w] row] eqn:E; auto.
      exfalso. apply Hno. exists (v, b, w). split.
      * apply (peso_aresta G v b w Hbf), (linha_peso G v b w Hbf). rewrite E. now left.
      * unfold toca. simpl. now rewrite String.eqb_refl.
    + destruct (filter (fun e : string * string * Z => String.eqb (snd (fst e)) v) (arestas G))
        as [|e l] eqn:E; auto.
      exfalso. apply Hno. exists e.
      assert (Hf : In e (filter (fun e : string * string * Z =>
                                   String.eqb (snd (fst e)) v) (arestas G))).
      { rewrite E. now left. }
      apply filter_In in Hf. destruct Hf as [Hin Hv]. split; auto.
      unfold toca. rewrite Hv. apply orb_true_r.
Qed.

(** X7: on a well-formed graph [vertices_isolados()] counts exactly the
    vertices that are an endpoint of no edge. *)
Theorem vertices_isolados_correto (G : GrafoEnron) :
  bem_formado G ->
  vertices_isolados G =
  List.length (filter (fun v => negb (existsb (toca v) (arestas G))) (vertices G)).
Proof.
  intros Hbf. unfold vertices_isolados. f_equal.
  apply filter_ext. intros v. now apply isolado_spec.
Qed.

Lemma vertices_isolados_correto_witness :
  bem_formado so_um_vertice /\
  vertices_isolados so_um_vertice =
  List.length (filter (fun v => negb (existsb (toca v) (arestas so_um_vertice)))
                 (vertices so_um_vertice)).
Proof.
  assert (H : bem_formado so_um_vertice).
  { constructor; simpl; try tauto; repeat constructor; simpl; tauto. }
  split; [exact H|]. apply (vertices_isolados_correto so_um_vertice H).
Defined.

(** X8: a graph built by insertions has no isolated vertex: a vertex enters
    the set only together with an edge that touches it, so
    [vertices_isolados()] returns 0. *)
Theorem grafo_construido_sem_isolados (pares : list (string * string)) :
  vertices_isolados (inserir_todas novo pares) = 0%nat.
Proof.
  set (G := inserir_todas novo pares).
  assert (Hbf : bem_formado G) by apply bem_formado_inserir_todas, bem_formado_novo.
  unfold vertices_isolados.
  rewrite (filter_ext _ (fun v => negb (existsb (toca v) (arestas G))))
    by (intros v; now apply isolado_spec).
  assert (Hnone : forall v, In v (vertices G) ->
                            negb (existsb (toca v) (arestas G)) = false).
  { intros v Hv. apply negb_false_iff, existsb_exists.
    apply vertices_inserir_todas_geral in Hv. destruct Hv as [[]|([a b] & Hp & Hne & Hv)].
    simpl in Hne, Hv.
    destruct (proj2 (aresta_do_grafo_construido pares a b) (conj Hne Hp)) as (w & Hw).
    exists (a, b, w). split.
    - now apply peso_aresta.
    - unfold toca. simpl. destruct Hv as [->| ->]; rewrite String.eqb_refl; auto.
      apply orb_true_r. }
  induction (vertices G) as [|v vs IH]; simpl; auto.
  rewrite Hnone by now left. apply IH. intros x Hx. apply Hnone. now right.
Qed.

(** ** The search order of [bfs] and the transposed graph *)




Lemma get_inverter (u0 : string) (row : dict Z) :
  NoDup (keys row) ->
  forall (rev : dict (dict Z)) (v u : string),
    get (get_default (fold_left (inverter_aresta u0) row rev) v []) u =
    if String.eqb u0 u
    then match get row v with
         | Some w => Some w
         | None => get (get_default rev v []) u
         end
    else get (get_default rev v []) u.
Proof.
  induction row as [|[v' w] row IH]; intros Hnd rev v u; cbn [fold_left].
  - simpl. now destruct (String.eqb u0 u).
  - inversion Hnd as [|? ? Hni Hnd']; subst. rewrite IH by assumption.
    unfold inverter_aresta. cbn [fst snd]. rewrite get_default_set.
    cbn [get]. rewrite (String.eqb_sym v v').
    destruct (String.eqb v' v) eqn:Ev.
    + apply String.eqb_eq in Ev. subst v'.
      assert (En : get row v = None) by now apply get_none_iff.
      rewrite En, get_set. now destruct (String.eqb u0 u).
    + reflexivity.
Qed.

Lemma get_reverso_geral (g : dict (dict Z)) :
  NoDup (keys g) -> (forall k r, In (k, r) g -> NoDup (keys r)) ->
  forall (rev : dict (dict Z)) (v u : string),
    get (get_default
           (fold_left (fun rev r => fold_left (inverter_aresta (fst r)) (snd r) rev) g rev)
           v []) u =
    match get g u with
    | Some row => match get row v with
                  | Some w => Some w
                  | None => get (get_default rev v []) u
                  end
    | None => get (get_default rev v []) u
    end.
Proof.
  induction g as [|[u0 row] g IH]; intros Hk Hl rev v u; cbn [fold_left fst snd].
  - reflexivity.
  - inversion Hk as [|? ? Hni Hk']; subst.
    rewrite IH; auto; [|intros k r H; apply (Hl k); now right].
    rewrite get_inverter by (apply (Hl u0); now left).
    cbn [get]. rewrite (String.eqb_sym u u0).
    destruct (String.eqb u0 u) eqn:Eu.
    + apply String.eqb_eq in Eu. subst u0.
      assert (En : get g u = None) by now apply get_none_iff.
      rewrite En. reflexivity.
    + reflexivity.
Qed.

Lemma reverso_sem_repeticao (g : dict (dict Z)) :
  NoDup (keys (reverso g)) /\ (forall k r, In (k, r) (reverso g) -> NoDup (keys r)).
Proof.
  unfold reverso.
  assert (H : forall rev,
    NoDup (keys rev) /\ (forall k r, In (k, r) rev -> NoDup (keys r)) ->
    NoDup (keys (fold_left (fun rev r => fold_left (inverter_aresta (fst r)) (snd r) rev) g rev)) /\
    (forall k r,
        In (k, r) (fold_left (fun rev r => fold_left (inverter_aresta (fst r)) (snd r) rev) g rev) ->
        NoDup (keys r))).
  { induction g as [|[u0 row] g IH]; intros rev Hrev; cbn [fold_left fst snd]; auto.
    apply IH. clear IH. revert rev Hrev.
    induction row as [|[v w] row IHr]; intros rev Hrev; cbn [fold_left]; auto.
    apply IHr. destruct Hrev as [H1 H2]. unfold inverter_aresta. cbn [fst snd]. split.
    - now apply NoDup_keys_set.
    - intros k r Hin. apply in_set_inv in Hin. destruct Hin as [[-> ->]|Hin]; eauto.
      apply NoDup_keys_set. unfold get_default.
      destruct (get rev v) eqn:E; [|constructor].
      apply get_some_in in E. eauto. }
  apply H. split; [constructor | intros k r []].
Qed.

(** X10: the dictionary [reverso] built by [_eh_fortemente_conexo] is the
    transposed graph: it has the edge [v -> u] with weight [w] exactly when
    the graph has [u -> v] with weight [w]; hence transposing twice gives
    back every weight. *)
Theorem reverso_transpoe (G : GrafoEnron) (u v : string) :
  bem_formado G ->
  peso (transposto G) v u = peso G u v /\
  peso (transposto (transposto G)) u v = peso G u v.
Proof.
  intros Hbf.
  assert (H1 : forall (g : dict (dict Z)) a b,
             NoDup (keys g) -> (forall k r, In (k, r) g -> NoDup (keys r)) ->
             get (get_default (reverso g) b []) a =
             match get g a with Some row => get row b | None => None end).
  { intros g a b Hk Hl. unfold reverso. rewrite get_reverso_geral by assumption.
    destruct (get g a) as [row|]; [|reflexivity]. now destruct (get row b). }
  assert (H2 : forall (g : dict (dict Z)) a b,
             match get g a with Some row => get row b | None => None end =
             get (get_default g a []) b).
  { intros g a b. unfold get_default. now destruct (get g a). }
  assert (Hp : forall (G' : GrafoEnron) a b, peso G' a b = get (get_default (grafo G') a []) b).
  { intros G' a b. unfold peso. apply H2. }
  destruct (reverso_sem_repeticao (grafo G)) as [Hk Hl].
  split.
  - rewrite !Hp. cbn [transposto grafo]. rewrite H1, H2; auto; apply Hbf.
  - rewrite !Hp. cbn [transposto grafo]. rewrite H1, H2 by assumption.
    rewrite H1, H2; auto; apply Hbf.
Qed.

Lemma reverso_transpoe_witness :
  bem_formado caminho_abc /\
  peso (transposto caminho_abc) "b" "a" = peso caminho_abc "a" "b" /\
  peso (transposto (transposto caminho_abc)) "a" "b" = peso caminho_abc "a" "b".
Proof.
  split; [exact bem_formado_caminho_abc|].
  apply (reverso_transpoe caminho_abc "a" "b" bem_formado_caminho_abc).
Defined.

(** ** More on the two searches *)

Lemma caminho_peso (G : GrafoEnron) (o v : string) (c : list string) (d : Z) :
  bem_formado G -> caminho G o v c d ->
  0 <= d /\ (v <> o -> 1 <= d) /\ (d = 0 -> v = o /\ c = [o]).
Proof.
  intros Hbf H. induction H as [|u v w c d Hc (IH0 & IH1 & IH2) Hw].
  - split; [lia|]. split; [congruence | auto].
  - assert (1 <= w) by (eapply peso_positivo; eauto).
    split; [lia|]. split; intros; lia.
Qed.

Lemma dijkstra_estado_final (G : GrafoEnron) (origem : string) (fuel : nat) :
  bem_formado G -> (fuel_dijkstra G <= fuel)%nat ->
  exists ds cs, _dijkstra_com_caminhos fuel G origem = Done (ds, cs) /\
                dij_inv G origem None ds [] /\ cam_inv G origem ds cs.
Proof.
  intros Hbf Hfuel. unfold _dijkstra_com_caminhos.
  apply caminhos_loop_correto; auto.
  - now apply dij_inv_inicial.
  - split.
    + intros v. simpl. destruct (String.eqb v origem); split; congruence.
    + intros v c. simpl. destruct (String.eqb v origem) eqn:Ev; [|discriminate].
      apply String.eqb_eq in Ev. subst v. intros [= <-].
      exists 0, 0. split; [constructor|]. split; auto. lia.
  - now apply medida_inicial.
Qed.

(** X11: [_dijkstra_com_caminhos(origem)] records a vertex exactly when it
    is reachable from the origin; the two dictionaries it returns have the
    same keys, none repeated; the origin itself is recorded at distance 0
    with the path [[origem]]; and every other recorded distance is at least
    1. *)
Theorem dijkstra_registra_so_alcancaveis (G : GrafoEnron) (origem : string) (fuel : nat) :
  bem_formado G -> (fuel_dijkstra G <= fuel)%nat ->
  exists distancias caminhos,
    _dijkstra_com_caminhos fuel G origem = Done (distancias, caminhos) /\
    NoDup (keys distancias) /\
    (forall v, (exists d, get distancias v = Some d) <-> alcancavel G origem v) /\
    (forall v, get caminhos v = None <-> get distancias v = None) /\
    get distancias origem = Some 0 /\
    get caminhos origem = Some [origem] /\
    (forall v d, get distancias v = Some d -> v <> origem -> 1 <= d).
Proof.
  intros Hbf Hfuel.
  destruct (dijkstra_estado_final G origem fuel Hbf Hfuel) as (ds & cs & E & Hinv & Hk & Hp).
  exists ds, cs. split; [exact E|]. split; [apply Hinv|].
  pose proof (dij_inv_final G origem None Hbf ds Hinv) as Hfinal.
  split; [|split; [exact Hk|split; [apply Hinv|split]]].
  - intros v. split.
    + intros (d & Hd). destruct (di_real _ _ _ _ _ Hinv v d Hd) as (c & Hc).
      exists c, d. exact Hc.
    + intros (c & d & Hc). destruct (Hfinal v c d Hc I) as (dv & Hdv & _). eauto.
  - destruct (get cs origem) as [c|] eqn:Ec.
    + destruct (Hp origem c Ec) as (d & dv & Hc & Hdv & Hle).
      rewrite (di_origem _ _ _ _ _ Hinv) in Hdv. injection Hdv as <-.
      destruct (caminho_peso G origem origem c d Hbf Hc) as (H0 & _ & Hz).
      destruct Hz as [_ ->]; [lia | reflexivity].
    + apply Hk in Ec. rewrite (di_origem _ _ _ _ _ Hinv) in Ec. discriminate.
  - intros v d Hd Hne. destruct (di_real _ _ _ _ _ Hinv v d Hd) as (c & Hc).
    now apply (caminho_peso G origem v c d Hbf Hc).
Qed.

Lemma dijkstra_registra_so_alcancaveis_witness :
  bem_formado caminho_abc /\ (fuel_dijkstra caminho_abc <= 34)%nat /\
  exists distancias caminhos,
    _dijkstra_com_caminhos 34 caminho_abc "b" = Done (distancias, caminhos) /\
    NoDup (keys distancias) /\
    (forall v, (exists d, get distancias v = Some d) <-> alcancavel caminho_abc "b" v) /\
    (forall v, get caminhos v = None <-> get distancias v = None) /\
    get distancias "b" = Some 0 /\
    get caminhos "b" = Some ["b"] /\
    (forall v d, get distancias v = Some d -> v <> "b" -> 1 <= d).
Proof.
  split; [exact bem_formado_caminho_abc|]. split; [vm_compute; lia|].
  apply (dijkstra_registra_so_alcancaveis caminho_abc "b" 34 bem_formado_caminho_abc).
  vm_compute. lia.
Defined.

(** The result of the bounded search in terms of paths. *)
Lemma ate_distancia_membros (G : GrafoEnron) (origem : string) (D : Z) (fuel : nat) :
  bem_formado G -> (fuel_dijkstra G <= fuel)%nat ->
  exists r, vertices_ate_distancia fuel G origem D = Done r /\
            forall v, In v r <->
                      v <> origem /\ exists c d, caminho G origem v c d /\ d <= D.
Proof.
  intros Hbf Hfuel. unfold vertices_ate_distancia.
  destruct (ate_loop_correto G origem Hbf D fuel [(origem, 0)] [(0, origem)])
    as (ds & E & Hinv).
  - now apply dij_inv_inicial.
  - now apply medida_inicial.
  - rewrite E. cbn [bind]. eexists. split; [reflexivity|].
    intros v. rewrite in_map_iff. split.
    + intros ([v' d] & <- & Hin). apply filter_In in Hin. destruct Hin as [Hin Hf].
      simpl in *. apply andb_true_iff in Hf. destruct Hf as [Hne Hle].
      apply negb_true_iff, String.eqb_neq in Hne. apply Z.leb_le in Hle.
      split; [exact Hne|].
      apply (in_get ds v' d (di_nodup _ _ _ _ _ Hinv)) in Hin.
      destruct (di_real _ _ _ _ _ Hinv v' d Hin) as (c & Hc). eauto.
    + intros (Hne & c & d & Hc & Hle).
      destruct (dij_inv_final G origem (Some D) Hbf ds Hinv v c d Hc Hle) as (dv & Hdv & Hle').
      exists (v, dv). split; [reflexivity|]. apply filter_In. split.
      * now apply get_some_in.
      * simpl. apply andb_true_iff. split.
        -- apply negb_true_iff, String.eqb_neq. exact Hne.
        -- apply Z.leb_le. lia.
Qed.

(** X12: the two searches agree: [vertices_ate_distancia(origem, D)] lists
    exactly the vertices other than the origin to which
    [_dijkstra_com_caminhos(origem)] assigns a distance of at most [D]. *)
Theorem buscas_concordam (G : GrafoEnron) (origem : string) (D : Z) (fuel : nat) :
  bem_formado G -> (fuel_dijkstra G <= fuel)%nat ->
  exists r distancias caminhos,
    vertices_ate_distancia fuel G origem D = Done r /\
    _dijkstra_com_caminhos fuel G origem = Done (distancias, caminhos) /\
    forall v, In v r <->
              v <> origem /\ exists d, get distancias v = Some d /\ d <= D.
Proof.
  intros Hbf Hfuel.
  destruct (ate_distancia_membros G origem D fuel Hbf Hfuel) as (r & Er & Hr).
  destruct (dijkstra_estado_final G origem fuel Hbf Hfuel) as (ds & cs & E & Hinv & _).
  exists r, ds, cs. split; [exact Er|]. split; [exact E|].
  intros v. rewrite Hr. split; intros (Hne & H); split; auto.
  - destruct H as (c & d & Hc & Hle).
    destruct (dij_inv_final G origem None Hbf ds Hinv v c d Hc I) as (dv & Hdv & Hle').
    exists dv. split; auto. lia.
  - destruct H as (d & Hd & Hle).
    destruct (di_real _ _ _ _ _ Hinv v d Hd) as (c & Hc). eauto.
Qed.

Lemma buscas_concordam_witness :
  bem_formado caminho_abc /\ (fuel_dijkstra caminho_abc <= 34)%nat /\
  exists r distancias caminhos,
    vertices_ate_distancia 34 caminho_abc "a" 5 = Done r /\
    _dijkstra_com_caminhos 34 caminho_abc "a" = Done (distancias, caminhos) /\
    forall v, In v r <->
              v <> "a" /\ exists d, get distancias v = Some d /\ d <= 5.
Proof.
  split; [exact bem_formado_caminho_abc|]. split; [vm_compute; lia|].
  apply (buscas_concordam caminho_abc "a" 5 34 bem_formado_caminho_abc).
  vm_compute. lia.
Defined.

(** X13: a larger bound never loses a vertex, and a bound below 1 finds
    nothing, since every edge weighs at least 1. *)
Theorem ate_distancia_monotona (G : GrafoEnron) (origem : string) (D D' : Z) (fuel : nat) :
  bem_formado G -> (fuel_dijkstra G <= fuel)%nat -> D <= D' ->
  exists r r',
    vertices_ate_distancia fuel G origem D = Done r /\
    vertices_ate_distancia fuel G origem D' = Done r' /\
    incl r r' /\
    (D < 1 -> r = []).
Proof.
  intros Hbf Hfuel HD.
  destruct (ate_distancia_membros G origem D fuel Hbf Hfuel) as (r & Er & Hr).
  destruct (ate_distancia_membros G origem D' fuel Hbf Hfuel) as (r' & Er' & Hr').
  exists r, r'. split; [exact Er|]. split; [exact Er'|]. split.
  - intros v Hv. apply Hr'. apply Hr in Hv. destruct Hv as (Hne & c & d & Hc & Hle).
    split; auto. exists c, d. split; auto. lia.
  - intros Hlow. destruct r as [|v r0]; [reflexivity|]. exfalso.
    destruct (proj1 (Hr v) (or_introl eq_refl)) as (Hne & c & d & Hc & Hle).
    destruct (caminho_peso G origem v c d Hbf Hc) as (_ & H1 & _).
    specialize (H1 Hne). lia.
Qed.

Lemma ate_distancia_monotona_witness :
  bem_formado caminho_abc /\ (fuel_dijkstra caminho_abc <= 34)%nat /\ 0 <= 7 /\
  exists r r',
    vertices_ate_distancia 34 caminho_abc "a" 0 = Done r /\
    vertices_ate_distancia 34 caminho_abc "a" 7 = Done r' /\
    incl r r' /\
    (0 < 1 -> r = []).
Proof.
  split; [exact bem_formado_caminho_abc|]. split; [vm_compute; lia|]. split; [lia|].
  apply (ate_distancia_monotona caminho_abc "a" 0 7 34 bem_formado_caminho_abc);
    [vm_compute; lia | lia].
Defined.

(** ** The diameter is attained *)

Section DiametroAtingido.

Variable G : GrafoEnron.
Variable fuel : nat.
Hypothesis Hbf : bem_formado G.
Hypothesis Hfuel : (fuel_dijkstra G <= fuel)%nat.

Lemma atualizar_maior_atinge (o : string) (ds : dict Z) (cs : dict (list string))
  (l : list string) :
  In o (vertices G) ->
  (forall k d, get ds k = Some d ->
               distancia G o k d /\ exists c, get cs k = Some c /\ caminho G o k c d) ->
  (forall k, In k l -> exists d, get ds k = Some d) ->
  forall acc, maior_atingido G acc ->
  exists acc', for_each (atualizar_maior ds cs) l acc = Done acc' /\ maior_atingido G acc'.
Proof.
  intros Ho Hrec. induction l as [|k l IH]; intros Hl acc Hacc; cbn [for_each].
  - eauto.
  - destruct (Hl k (or_introl eq_refl)) as (d & Hd).
    destruct (Hrec k d Hd) as (Hdist & c & Hc & Hpath).
    unfold atualizar_maior at 1. rewrite Hd, Hc.
    assert (Hacc' : maior_atingido G (if d >? fst acc then (d, c) else acc)).
    { destruct (d >? fst acc) eqn:Egt; auto.
      right. cbn [fst snd]. split.
      - destruct Hacc as [->|[H _]]; simpl in Egt; lia.
      - exists o, k. auto. }
    destruct (IH (fun k' H => Hl k' (or_intror H)) _ Hacc') as (acc' & E & H').
    exists acc'. split; auto. destruct (d >? fst acc); exact E.
Qed.

Lemma diametro_atinge (vs : list string) :
  incl vs (vertices G) ->
  forall acc, maior_atingido G acc ->
  exists acc',
    for_each (fun acc origem =>
                r <- _dijkstra_com_caminhos fuel G origem ;;
                for_each (atualizar_maior (fst r) (snd r)) (keys (fst r)) acc) vs acc
    = Done acc' /\ maior_atingido G acc'.
Proof.
  induction vs as [|o vs IH]; intros Hvs acc Hacc; cbn [for_each].
  - eauto.
  - destruct (dijkstra_com_caminhos_correto G o fuel Hbf Hfuel)
      as (ds & cs & E & Hnd & Hreach & Hrec).
    rewrite E. cbn [bind fst snd].
    destruct (atualizar_maior_atinge o ds cs (keys ds)) with (acc := acc)
      as (acc1 & E1 & Hacc1); auto.
    { apply Hvs. now left. }
    { intros k Hk. now apply in_keys_get. }
    rewrite E1. cbn [bind]. apply IH; auto.
    intros x Hx. apply Hvs. now right.
Qed.

End DiametroAtingido.

(** X14: [calcular_diametro()] returns the largest shortest-path distance
    of the graph together with a path that realises it: either it returns
    [(0, [])], or the distance is positive, the path starts at a vertex of
    the graph, follows edges, weighs exactly the distance and is a shortest
    path between its ends; and no pair of vertices is farther apart. *)
Theorem diametro_e_o_maximo (G : GrafoEnron) (fuel : nat) :
  bem_formado G -> (fuel_dijkstra G <= fuel)%nat ->
  exists d c,
    calcular_diametro fuel G = Done (d, c) /\
    ((d = 0 /\ c = []) \/
     (0 < d /\ exists u v, In u (vertices G) /\ hd_error c = Some u /\ last c u = v /\
                           peso_caminho G c = Some d /\ distancia G u v d)) /\
    (forall u v delta, In u (vertices G) -> distancia G u v delta -> delta <= d).
Proof.
  intros Hbf Hfuel.
  destruct (diametro_atinge G fuel Hbf Hfuel (vertices G) (incl_refl _) (0, []))
    as ([d c] & E & Hat); [now left|].
  destruct (diametro_geral G fuel Hbf Hfuel (vertices G) (0, [])) as (acc' & E' & _ & Hall).
  unfold calcular_diametro. exists d, c. split; [exact E|].
  assert (acc' = (d, c)) by congruence. subst acc'. simpl in Hall.
  split; [|exact Hall].
  destruct Hat as [[= -> ->]|[Hpos (u & v & Hu & Hdist & Hpath)]]; [now left|].
  right. cbn [fst snd] in *. split; [exact Hpos|]. exists u, v.
  apply caminho_forma in Hpath. tauto.
Qed.

Lemma diametro_e_o_maximo_witness :
  bem_formado caminho_abc /\ (fuel_dijkstra caminho_abc <= 34)%nat /\
  exists d c,
    calcular_diametro 34 caminho_abc = Done (d, c) /\
    ((d = 0 /\ c = []) \/
     (0 < d /\ exists u v, In u (vertices caminho_abc) /\ hd_error c = Some u /\
                           last c u = v /\
                           peso_caminho caminho_abc c = Some d /\
                           distancia caminho_abc u v d)) /\
    (forall u v delta, In u (vertices caminho_abc) ->
                       distancia caminho_abc u v delta -> delta <= d).
Proof.
  split; [exact bem_formado_caminho_abc|]. split; [vm_compute; lia|].
  apply (diametro_e_o_maximo caminho_abc 34 bem_formado_caminho_abc).
  vm_compute. lia.
Defined.

(** ** The rankings list the right vertices *)

Lemma ordenado_separa (l1 l2 : list (Z * string)) :
  StronglySorted nao_menor (l1 ++ l2) ->
  forall x y, In x l1 -> In y l2 -> nao_menor x y.
Proof.
  induction l1 as [|a l1 IH]; simpl; intros Hs x y Hx Hy; [destruct Hx|].
  inversion Hs as [|? ? Hs' Hall]; subst. destruct Hx as [->|Hx].
  - rewrite Forall_forall in Hall. apply Hall. apply in_or_app. now right.
  - now apply IH.
Qed.

Lemma NoDup_prefixo {A : Type} (l1 l2 : list A) : NoDup (l1 ++ l2) -> NoDup l1.
Proof.
  induction l1 as [|a l1 IH]; simpl; intros H; [constructor|].
  inversion H as [|? ? Hni Hnd]; subst. constructor; auto.
  intros Hin. apply Hni. apply in_or_app. now left.
Qed.

(** The first [n] tuples of a list sorted in reverse. *)
Lemma primeiros_do_ranking (n : nat) (l : list (Z * string)) :
  let t := firstn n (sorted_reverse l) in
  (forall x, In x t -> In x l) /\
  (forall x, In x l -> In x t \/ forall y, In y t -> nao_menor y x) /\
  (NoDup (map snd l) -> NoDup (map snd t)).
Proof.
  intros t.
  pose proof (sorted_reverse_perm l) as Hperm.
  pose proof (firstn_skipn n (sorted_reverse l)) as Hsplit. fold t in Hsplit.
  assert (Hsorted : StronglySorted nao_menor (t ++ skipn n (sorted_reverse l))).
  { rewrite Hsplit. apply Sorted_StronglySorted.
    - intros a b c. apply nao_menor_trans.
    - apply sorted_reverse_sorted. }
  split; [|split].
  - intros x Hx. apply (Permutation_in x (Permutation_sym Hperm)).
    rewrite <- Hsplit. apply in_or_app. now left.
  - intros x Hx. apply (Permutation_in x Hperm) in Hx.
    rewrite <- Hsplit in Hx. apply in_app_or in Hx. destruct Hx as [Hx|Hx]; auto.
    right. intros y Hy. now apply (ordenado_separa _ _ Hsorted).
  - intros Hnd. apply (Permutation_NoDup (Permutation_map snd Hperm)) in Hnd.
    rewrite <- Hsplit, map_app in Hnd. now apply NoDup_prefixo in Hnd.
Qed.

(** X15: every entry [(grau, v)] of [top_20_grau_saida()] names a vertex
    with a row together with its weighted out-degree; no vertex is listed
    twice; and a vertex with a row that is not listed is ranked no higher
    than any listed entry. *)
Theorem top_20_grau_saida_correto (G : GrafoEnron) :
  bem_formado G ->
  (forall g v, In (g, v) (top_20_grau_saida G) ->
               In v (keys (grafo G)) /\ g = grau_saida_arestas G v) /\
  NoDup (map snd (top_20_grau_saida G)) /\
  (forall v, In v (keys (grafo G)) ->
             In (grau_saida_arestas G v, v) (top_20_grau_saida G) \/
             forall x, In x (top_20_grau_saida G) ->
                       nao_menor x (grau_saida_arestas G v, v)).
Proof.
  intros Hbf. unfold top_20_grau_saida.
  set (l := map (fun r : string * dict Z => (py_sum (values (snd r)), fst r)) (grafo G)).
  destruct (primeiros_do_ranking 20 l) as (H1 & H2 & H3).
  assert (Hl : forall g v, In (g, v) l <-> In v (keys (grafo G)) /\ g = grau_saida_arestas G v).
  { intros g v. rewrite <- grau_saida_arestas_eq by assumption. unfold l, grau_saida.
    rewrite in_map_iff. split.
    - intros ([u row] & [= <- <-] & Hin). simpl.
      rewrite (in_get _ _ _ (bf_chaves G Hbf) Hin). split; auto.
      apply (in_map fst) in Hin. exact Hin.
    - intros [Hv ->]. apply in_keys_get in Hv. destruct Hv as (row & Hrow).
      rewrite Hrow. exists (v, row). split; auto. now apply get_some_in. }
  split; [|split].
  - intros g v Hin. apply Hl. now apply H1.
  - apply H3. unfold l. rewrite map_map. simpl. apply Hbf.
  - intros v Hv. apply H2. apply Hl. auto.
Qed.

Lemma top_20_grau_saida_correto_witness :
  bem_formado caminho_abc /\
  (forall g v, In (g, v) (top_20_grau_saida caminho_abc) ->
               In v (keys (grafo caminho_abc)) /\ g = grau_saida_arestas caminho_abc v) /\
  NoDup (map snd (top_20_grau_saida caminho_abc)) /\
  (forall v, In v (keys (grafo caminho_abc)) ->
             In (grau_saida_arestas caminho_abc v, v) (top_20_grau_saida caminho_abc) \/
             forall x, In x (top_20_grau_saida caminho_abc) ->
                       nao_menor x (grau_saida_arestas caminho_abc v, v)).
Proof.
  split; [exact bem_formado_caminho_abc|].
  apply (top_20_grau_saida_correto caminho_abc bem_formado_caminho_abc).
Defined.

Lemma py_sum_pos {A : Type} (f : A -> Z) (l : list A) :
  (forall x, In x l -> 1 <= f x) -> l <> [] -> 1 <= py_sum (map f l).
Proof.
  intros Hf Hne. destruct l as [|x l]; [congruence|]. simpl.
  assert (1 <= f x) by (apply Hf; now left).
  assert (0 <= py_sum (map f l)).
  { apply py_sum_nonneg. intros y Hy. assert (1 <= f y) by (apply Hf; now right). lia. }
  lia.
Qed.

(** X16: every entry [(grau, v)] of [top_20_grau_entrada()] names a vertex
    that has an incoming edge together with its weighted in-degree, which is
    at least 1; no vertex is listed twice; and a vertex with an incoming edge
    that is not listed is ranked no higher than any listed entry.  A vertex
    without incoming edges is never listed. *)
Theorem top_20_grau_entrada_correto (G : GrafoEnron) :
  bem_formado G ->
  (forall g v, In (g, v) (top_20_grau_entrada G) ->
               (exists u w, peso G u v = Some w) /\
               g = grau_entrada_arestas G v /\ 1 <= g) /\
  NoDup (map snd (top_20_grau_entrada G)) /\
  (forall v u w, peso G u v = Some w ->
                 In (grau_entrada_arestas G v, v) (top_20_grau_entrada G) \/
                 forall x, In x (top_20_grau_entrada G) ->
                           nao_menor x (grau_entrada_arestas G v, v)).
Proof.
  intros Hbf. unfold top_20_grau_entrada.
  set (l := map (fun e : string * Z => (snd e, fst e)) (items (graus_entrada G))).
  destruct (primeiros_do_ranking 20 l) as (H1 & H2 & H3).
  destruct (graus_entrada_geral (grafo G) []) as (_ & Hnd & Hkeys).
  fold (graus_entrada G) in Hnd, Hkeys. specialize (Hnd (NoDup_nil _)).
  assert (Hk : forall v, In v (keys (graus_entrada G)) <-> exists u w, peso G u v = Some w).
  { intros v. rewrite Hkeys. simpl. split.
    - intros [[]|(u & row & Hin & Hv)]. apply in_keys_get in Hv. destruct Hv as (w & Hw).
      exists u, w. apply peso_aresta; auto. apply in_arestas.
      exists row. split; auto. now apply get_some_in.
    - intros (u & w & Hw). right. apply (peso_aresta G u v w Hbf), in_arestas in Hw.
      destruct Hw as (row & Hin & Hv). exists u, row. split; auto.
      apply (in_map fst) in Hv. exact Hv. }
  assert (Hl : forall g v, In (g, v) l <->
                           (exists u w, peso G u v = Some w) /\ g = grau_entrada_arestas G v).
  { intros g v. rewrite <- grau_entrada_arestas_eq, <- Hk. unfold l, items, grau_entrada.
    rewrite in_map_iff. split.
    - intros ([v' g'] & [= <- <-] & Hin). simpl. split.
      + apply (in_map fst) in Hin. exact Hin.
      + unfold get_default. now rewrite (in_get _ _ _ Hnd Hin).
    - intros [Hv ->]. apply in_keys_get in Hv. destruct Hv as (g & Hg).
      exists (v, g). unfold get_default. rewrite Hg. split; auto. now apply get_some_in. }
  split; [|split].
  - intros g v Hin. apply H1, Hl in Hin. destruct Hin as [Hv ->].
    split; [exact Hv|]. split; [reflexivity|].
    destruct Hv as (u & w & Hw). apply (peso_aresta G u v w Hbf) in Hw.
    unfold grau_entrada_arestas. apply py_sum_pos.
    + intros e He. apply filter_In in He. apply (aresta_positiva G Hbf), He.
    + intros Hnil.
      assert (Hin : In (u, v, w) (filter (fun e : string * string * Z =>
                                            String.eqb (snd (fst e)) v) (arestas G))).
      { apply filter_In. split; auto. apply String.eqb_refl. }
      rewrite Hnil in Hin. destruct Hin.
  - apply H3. unfold l. rewrite map_map. simpl. exact Hnd.
  - intros v u w Hw. apply H2. apply Hl. eauto.
Qed.

Lemma top_20_grau_entrada_correto_witness :
  bem_formado caminho_abc /\
  (forall g v, In (g, v) (top_20_grau_entrada caminho_abc) ->
               (exists u w, peso caminho_abc u v = Some w) /\
               g = grau_entrada_arestas caminho_abc v /\ 1 <= g) /\
  NoDup (map snd (top_20_grau_entrada caminho_abc)) /\
  (forall v u w, peso caminho_abc u v = Some w ->
                 In (grau_entrada_arestas caminho_abc v, v) (top_20_grau_entrada caminho_abc) \/
                 forall x, In x (top_20_grau_entrada caminho_abc) ->
                           nao_menor x (grau_entrada_arestas caminho_abc v, v)).
Proof.
  split; [exact bem_formado_caminho_abc|].
  apply (top_20_grau_entrada_correto caminho_abc bem_formado_caminho_abc).
Defined.

(** ** Ingestion and export *)

Lemma inserir_todas_app (G : GrafoEnron) (l1 l2 : list (string * string)) :
  inserir_todas G (l1 ++ l2) = inserir_todas (inserir_todas G l1) l2.
Proof.
  unfold inserir_todas. apply fold_left_app.
Qed.

Lemma processar_mensagem_pares (G : GrafoEnron) (m : mensagem) :
  processar_mensagem G m = inserir_todas G (pares_da_mensagem m).
Proof.
  destruct m as [[r|] ds]; unfold processar_mensagem, pares_da_mensagem; cbn [fst snd]; auto.
  destruct (String.eqb r ""); auto.
  assert (H : forall G', fold_left (fun G0 d => _adicionar_aresta G0 r d) ds G' =
                         inserir_todas G' (map (fun d => (r, d)) ds)).
  { induction ds as [|d ds IH]; intros G'; simpl; auto. }
  destruct ds; [reflexivity | apply H].
Qed.

Lemma processar_emails_pares (mensagens : list mensagem) (G : GrafoEnron) :
  processar_emails G mensagens = inserir_todas G (flat_map pares_da_mensagem mensagens).
Proof.
  revert G. induction mensagens as [|m ms IH]; intros G; [reflexivity|].
  cbn [processar_emails fold_left flat_map]. fold (processar_emails (processar_mensagem G m) ms).
  now rewrite IH, processar_mensagem_pares, inserir_todas_app.
Qed.

Lemma ocorrencias_app (a b : string) (l1 l2 : list (string * string)) :
  ocorrencias a b (l1 ++ l2) = (ocorrencias a b l1 + ocorrencias a b l2)%nat.
Proof.
  unfold ocorrencias. now rewrite filter_app, length_app.
Qed.

Lemma ocorrencias_mensagem (a b : string) (m : mensagem) :
  a <> "" ->
  ocorrencias a b (pares_da_mensagem m) =
  match fst m with
  | Some r => if String.eqb r a
              then List.length (filter (String.eqb b) (snd m)) else 0%nat
  | None => 0%nat
  end.
Proof.
  intros Ha. destruct m as [[r|] ds]; unfold pares_da_mensagem; cbn [fst snd]; auto.
  destruct (String.eqb r "") eqn:Er.
  - apply String.eqb_eq in Er. subst r.
    destruct (String.eqb "" a) eqn:E; auto. apply String.eqb_eq in E. congruence.
  - unfold ocorrencias. induction ds as [|d ds IH]; cbn [map filter fst snd].
    + now destruct (String.eqb r a).
    + rewrite (String.eqb_sym b d).
      destruct (String.eqb r a) eqn:E1; destruct (String.eqb d b) eqn:E2;
        cbn [andb List.length]; rewrite IH; reflexivity.
Qed.

Lemma ocorrencias_envios (a b : string) (mensagens : list mensagem) :
  a <> "" -> ocorrencias a b (flat_map pares_da_mensagem mensagens) = envios a b mensagens.
Proof.
  intros Ha. induction mensagens as [|m ms IH]; [reflexivity|].
  cbn [flat_map]. rewrite ocorrencias_app, IH, ocorrencias_mensagem by assumption.
  reflexivity.
Qed.

(** X17: after [processar_emails] on an empty graph, the edge [a -> b]
    between two different addresses exists exactly when some message sent by
    [a] lists [b] as a recipient, and its weight is the number of such
    listings over all messages; a message without sender, with an empty
    sender, or without recipients leaves the graph as it is. *)
Theorem processar_emails_conta_envios (mensagens : list mensagem) (a b : string) :
  a <> b -> a <> "" ->
  peso (processar_emails novo mensagens) a b =
    match envios a b mensagens with
    | O => None
    | S n => Some (Z.of_nat (S n))
    end /\
  (forall G ds, processar_mensagem G (None, ds) = G /\
                processar_mensagem G (Some "", ds) = G) /\
  (forall G r, processar_mensagem G (r, []) = G).
Proof.
  intros Hab Ha. split; [|split].
  - rewrite processar_emails_pares, peso_inserir_todas_geral by assumption.
    rewrite ocorrencias_envios by assumption.
    destruct (envios a b mensagens); reflexivity.
  - intros G ds. split; reflexivity.
  - intros G [r|]; unfold processar_mensagem; cbn [fst snd]; auto.
    now destruct (String.eqb r "").
Qed.

Lemma processar_emails_conta_envios_witness :
  "a" <> "b" /\ "a" <> "" /\
  peso (processar_emails novo [(Some "a", ["b"; "c"; "b"]); (None, ["b"]); (Some "a", ["b"])])
    "a" "b" =
    match envios "a" "b" [(Some "a", ["b"; "c"; "b"]); (None, ["b"]); (Some "a", ["b"])] with
    | O => None
    | S n => Some (Z.of_nat (S n))
    end /\
  (forall G ds, processar_mensagem G (None, ds) = G /\
                processar_mensagem G (Some "", ds) = G) /\
  (forall G r, processar_mensagem G (r, []) = G).
Proof.
  split; [discriminate|]. split; [discriminate|].
  apply (processar_emails_conta_envios
           [(Some "a", ["b"; "c"; "b"]); (None, ["b"]); (Some "a", ["b"])] "a" "b");
    discriminate.
Defined.

(** X18: the file written by [salvar_lista_adjacencias] for a built graph
    has one line per edge: its lines are exactly the lines
    [a -> b [peso: n]] for the pairs [(a, b)], [a <> b], of the stream, with
    [n] the number of occurrences of the pair; there are
    [numero_de_arestas()] of them. *)
Theorem linhas_do_grafo_construido (pares : list (string * string)) :
  let G := inserir_todas novo pares in
  List.length (linhas_adjacencia G) = numero_de_arestas G /\
  forall l, In l (linhas_adjacencia G) <->
            exists a b, a <> b /\ In (a, b) pares /\
                        l = linha a b (Z.of_nat (ocorrencias a b pares)).
Proof.
  intros G.
  assert (Hbf : bem_formado G) by apply bem_formado_inserir_todas, bem_formado_novo.
  unfold linhas_adjacencia. split.
  - now rewrite length_map, length_arestas.
  - assert (Hw : forall a b w, In (a, b, w) (arestas G) <->
                   a <> b /\ In (a, b) pares /\ w = Z.of_nat (ocorrencias a b pares)).
    { intros a b w. rewrite <- (peso_aresta G a b w Hbf). subst G.
      destruct (string_dec a b) as [->|Hab].
      - rewrite peso_laco_inserir_todas by reflexivity. split; [discriminate | tauto].
      - rewrite peso_inserir_todas_geral by assumption.
        rewrite <- ocorrencias_pos. simpl.
        destruct (ocorrencias a b pares) as [|n]; split.
        + discriminate.
        + lia.
        + intros [= <-]. repeat split; auto; lia.
        + intros (_ & _ & ->). reflexivity. }
    intros l. rewrite in_map_iff. split.
    + intros ([[a b] w] & <- & Hin). apply Hw in Hin. destruct Hin as (Hab & Hp & ->).
      exists a, b. auto.
    + intros (a & b & Hab & Hp & ->).
      exists (a, b, Z.of_nat (ocorrencias a b pares)). split; auto.
      apply Hw. auto.
Qed.

(** ** The reasons of the Eulerian check *)

Lemma inconsistencias_linhas (G : GrafoEnron) :
  bem_formado G ->
  inconsistencias G =
  map (fun v => msg_vertice v (grau_entrada_arestas G v) (grau_saida_arestas G v))
    (desequilibrados G).
Proof.
  intros Hbf. unfold inconsistencias, desequilibrados.
  induction (vertices G) as [|v vs IH]; simpl; auto.
  rewrite <- grau_entrada_arestas_eq, <- grau_saida_arestas_eq by assumption.
  destruct (grau_entrada G v =? grau_saida G v); simpl; rewrite IH; auto.
  now rewrite <- grau_entrada_arestas_eq, <- grau_saida_arestas_eq by assumption.
Qed.

(** X19: the reasons [grafo_euleriano()] returns are, in this order: when
    some vertex is unbalanced, the header and one line per unbalanced
    vertex, in the order of the vertex set, showing its in-degree and its
    out-degree; then, when the graph is not strongly connected, the
    connectivity message; and nothing else. *)
Theorem motivos_do_grafo_euleriano (G : GrafoEnron) (fuel : nat) :
  bem_formado G -> (fuel_bfs G <= fuel)%nat ->
  exists veredito problemas conexidade,
    grafo_euleriano fuel G = Done (veredito, problemas) /\
    problemas =
      (match desequilibrados G with [] => [] | _ => [msg_graus] end) ++
      map (fun v => msg_vertice v (grau_entrada_arestas G v) (grau_saida_arestas G v))
        (desequilibrados G) ++
      conexidade /\
    ((fortemente_conexo G /\ conexidade = []) \/
     (~ fortemente_conexo G /\ conexidade = [msg_conexo])) /\
    List.length problemas =
      ((match desequilibrados G with [] => 0 | _ => 1 end) +
       List.length (desequilibrados G) + List.length conexidade)%nat.
Proof.
  intros Hbf Hfuel.
  destruct (fortemente_conexo_decide G fuel Hbf Hfuel) as (conexo & Ec & Hc).
  unfold grafo_euleriano. rewrite Ec. cbn [bind].
  rewrite (inconsistencias_linhas G Hbf).
  eexists. eexists. exists (if conexo then [] else [msg_conexo]).
  split; [reflexivity|]. split; [|split].
  - destruct (desequilibrados G) as [|v vs]; destruct conexo; simpl;
      rewrite ?app_nil_r; reflexivity.
  - destruct conexo.
    + left. split; [now apply Hc | reflexivity].
    + right. split; [|reflexivity]. intros H. apply Hc in H. discriminate.
  - destruct (desequilibrados G) as [|v vs]; destruct conexo; simpl;
      rewrite ?length_app, ?length_map; simpl; lia.
Qed.

Lemma motivos_do_grafo_euleriano_witness :
  bem_formado caminho_abc /\ (fuel_bfs caminho_abc <= 3)%nat /\
  exists veredito problemas conexidade,
    grafo_euleriano 3 caminho_abc = Done (veredito, problemas) /\
    problemas =
      (match desequilibrados caminho_abc with [] => [] | _ => [msg_graus] end) ++
      map (fun v => msg_vertice v (grau_entrada_arestas caminho_abc v)
                      (grau_saida_arestas caminho_abc v))
        (desequilibrados caminho_abc) ++
      conexidade /\
    ((fortemente_conexo caminho_abc /\ conexidade = []) \/
     (~ fortemente_conexo caminho_abc /\ conexidade = [msg_conexo])) /\
    List.length problemas =
      ((match desequilibrados caminho_abc with [] => 0 | _ => 1 end) +
       List.length (desequilibrados caminho_abc) + List.length conexidade)%nat.
Proof.
  split; [exact bem_formado_caminho_abc|]. split; [vm_compute; lia|].
  apply (motivos_do_grafo_euleriano caminho_abc 3 bem_formado_caminho_abc).
  vm_compute. lia.
Defined.

Lemma peso_conta_mensagens_witness :
  let G := inserir_todas novo [("a", "b"); ("c", "c"); ("a", "b")] in
  "a" <> "b" /\
  peso G "a" "b" = match ocorrencias "a" "b" [("a", "b"); ("c", "c"); ("a", "b")] with
                   | O => None
                   | S n => Some (Z.of_nat (S n))
                   end /\
  peso G "c" "c" = None.
Proof.
  split; [discriminate|]. split.
  - apply (proj1 (peso_conta_mensagens [("a", "b"); ("c", "c"); ("a", "b")] "a" "b")).
    discriminate.
  - apply (proj2 (peso_conta_mensagens [("a", "b"); ("c", "c"); ("a", "b")] "c" "c")).
Defined.
